(** * Static sampling-strategy store (plugin/sampling/strategystore/static)

    A shallow embedding of [strategy_store.go]: the resolver
    ([parseStrategy], [parseOperationStrategy], [parseServiceStrategies],
    [mergePerOperationSamplingStrategies], [parseStrategies]), the query
    path ([GetSamplingStrategy]), the loaders and the reload loop
    ([reloadSamplingStrategy], [autoUpdateStrategies]), followed by the
    properties of the specification that concern them.

    Conventions.
    - [float64] is Rocq's primitive binary64 [float]; the program only copies
      rates, it never computes with them.
    - [[]byte] and [string] are both [string]; [string(b)] is the identity.
    - A Go slice is a [list]. Every slice of the program is grown by [append]
      from [nil], so it is [nil] exactly when it is empty, and [x == nil] on a
      slice is rendered as a test for [[]].
    - A pointer that may be [nil] is an [option]; a pointer the program never
      leaves [nil] is the pointee itself.
    - [h.logger] is the list of entries logged so far, oldest first. *)

From Stdlib Require Import ZArith Floats List.
From stdpp Require Import gmap strings list.

Set Warnings "-inexact-float".
Set Default Proof Using "Type".

(** ** The wire types of [api_v2] that the store fills in *)

Module api_v2.

Inductive SamplingStrategyType :=
| SamplingStrategyType_PROBABILISTIC
| SamplingStrategyType_RATE_LIMITING.

Record ProbabilisticSamplingStrategy := {
  SamplingRate : float
}.

Record RateLimitingSamplingStrategy := {
  MaxTracesPerSecond : Z
}.

(** In Go the second field is also called [ProbabilisticSampling]. *)
Record OperationSamplingStrategy := {
  Operation : string;
  OperationProbabilisticSampling : option ProbabilisticSamplingStrategy
}.

(** The two bound fields of the Go struct are never written by the store
    and are left out. *)
Record PerOperationSamplingStrategies := {
  DefaultSamplingProbability : float;
  PerOperationStrategies : list OperationSamplingStrategy
}.

Record SamplingStrategyResponse := {
  StrategyType : SamplingStrategyType;
  ProbabilisticSampling : option ProbabilisticSamplingStrategy;
  RateLimitingSampling : option RateLimitingSamplingStrategy;
  OperationSampling : option PerOperationSamplingStrategies
}.

End api_v2.

(** ** The configuration document *)

(** Modelled from the spec: the struct [strategy] is declared outside
    [strategy_store.go]; section 6 gives it a [type] string and a numeric
    [param]. *)
Record strategy := {
  Type_ : string;
  Param : float
}.

(** Modelled from the spec: [operationStrategy] embeds [strategy] and adds
    the [operation] name (the embedded field is [strategy] in Go). *)
Record operationStrategy := {
  Operation : string;
  op_strategy : strategy
}.

(** Modelled from the spec: [serviceStrategy] embeds [strategy] and adds the
    [service] name and the ordered [operation_strategies]. The elements are
    pointers in Go; a [null] element would make the loops below dereference
    [nil], and the model keeps to documents without one. *)
Record serviceStrategy := {
  Service : string;
  OperationStrategies : list operationStrategy;
  svc_strategy : strategy
}.

(** Modelled from the spec: the root document [strategies], with an optional
    [default_strategy] and the ordered [service_strategies]. *)
Record strategies := {
  DefaultStrategy : option serviceStrategy;
  ServiceStrategies : list serviceStrategy
}.

(** The value a [var strategies strategies] declaration starts from. *)
Definition zeroStrategies : strategies :=
  {| DefaultStrategy := None; ServiceStrategies := [] |}.

(** Modelled from the spec: the two type strings of section 6, which the
    source names [samplerTypeProbabilistic] and [samplerTypeRateLimiting]. *)
Definition samplerTypeProbabilistic : string := "probabilistic".
Definition samplerTypeRateLimiting : string := "ratelimiting".

(** ** Errors and log entries *)

Inductive error :=
| ErrDownload (cause : string)
| ErrReadBody (cause : string)
| ErrStatus (status body : string)
| ErrReadFile (strategiesFile cause : string)
| ErrUnmarshalStrategies (cause : string)
| ErrUnmarshalSamplingStrategies (cause : string).

Inductive logEntry :=
| Debug_notFound (service : string)
| Info_downloading (url : string)
| Info_loading (filename : string)
| Info_noStrategies
| Info_updated (bytes : string)
| Error_reload (err : error)
| Error_update (err : error)
| Warn_operationRateLimiting (operation : string) (probability : float)
                             (s : operationStrategy)
| Warn_failedToParse (s : strategy).

(** A computation that logs: its value and the entries it wrote. *)
Definition Logged (A : Type) : Type := A * list logEntry.

Definition ret {A} (a : A) : Logged A := (a, []).

Definition bind {A B} (c : Logged A) (k : A -> Logged B) : Logged B :=
  let '(a, l1) := c in
  let '(b, l2) := k a in
  (b, l1 ++ l2).

Definition tell (e : logEntry) : Logged unit := (tt, [e]).

Declare Scope logged_scope.
Delimit Scope logged_scope with logged.
Notation "x <- c ;; k" := (bind c (fun x => k))
  (at level 100, c at next level, right associativity) : logged_scope.
Notation "c ;;; k" := (bind c (fun _ => k))
  (at level 100, right associativity) : logged_scope.

(** [for _, x := range xs { acc = body(acc, x) }] with a logging body. *)
Fixpoint rangeM {A S} (body : S -> A -> Logged S) (xs : list A) (acc : S)
  : Logged S :=
  match xs with
  | [] => ret acc
  | x :: xs' => bind (body acc x) (rangeM body xs')
  end.

(** ** Conversions *)

(** [int32(f)] for a [float64]: the fraction is discarded. Outside the range
    of [int32] (and for NaN) Go leaves the result to the implementation; the
    model gives what amd64 gives, the least [int32]. *)
Definition int32_of_float64 (f : float) : Z :=
  match Prim2SF f with
  | S754_zero _ => 0
  | S754_finite s m e =>
      let v := if (0 <=? e)%Z then Z.pos m * 2 ^ e else Z.pos m / 2 ^ (- e) in
      let t := if s then - v else v in
      if ((- 2 ^ 31 <=? t) && (t <? 2 ^ 31))%Z%bool then t else - 2 ^ 31
  | _ => - 2 ^ 31
  end%Z.

(** ** The resolver *)

Section Resolver.

(** The constant [defaultSamplingProbability] is declared outside
    [strategy_store.go]; the resolver is kept generic in it. *)
Variable defaultSamplingProbability : float.

Local Open Scope logged_scope.

(** Modelled from the spec: [defaultStrategyResponse()] is declared outside
    [strategy_store.go]; the bootstrap default is a fixed probabilistic
    strategy with a fixed low rate. *)
Definition defaultStrategyResponse : api_v2.SamplingStrategyResponse :=
  {| api_v2.StrategyType := api_v2.SamplingStrategyType_PROBABILISTIC;
     api_v2.ProbabilisticSampling :=
       Some {| api_v2.SamplingRate := defaultSamplingProbability |};
     api_v2.RateLimitingSampling := None;
     api_v2.OperationSampling := None |}.

Definition parseStrategy (s : strategy)
  : Logged api_v2.SamplingStrategyResponse :=
  if decide (Type_ s = samplerTypeProbabilistic) then
    ret {| api_v2.StrategyType := api_v2.SamplingStrategyType_PROBABILISTIC;
           api_v2.ProbabilisticSampling :=
             Some {| api_v2.SamplingRate := Param s |};
           api_v2.RateLimitingSampling := None;
           api_v2.OperationSampling := None |}
  else if decide (Type_ s = samplerTypeRateLimiting) then
    ret {| api_v2.StrategyType := api_v2.SamplingStrategyType_RATE_LIMITING;
           api_v2.ProbabilisticSampling := None;
           api_v2.RateLimitingSampling :=
             Some {| api_v2.MaxTracesPerSecond :=
                       int32_of_float64 (Param s) |};
           api_v2.OperationSampling := None |}
  else
    tell (Warn_failedToParse s) ;;;
    ret defaultStrategyResponse.

(** The Go function returns [(s, ok)]; [(nil, false)] is [None]. *)
Definition parseOperationStrategy (o : operationStrategy)
    (parent : api_v2.PerOperationSamplingStrategies)
  : Logged (option api_v2.SamplingStrategyResponse) :=
  s <- parseStrategy (op_strategy o) ;;
  match api_v2.StrategyType s with
  | api_v2.SamplingStrategyType_RATE_LIMITING =>
      tell (Warn_operationRateLimiting (Operation o)
              (api_v2.DefaultSamplingProbability parent) o) ;;;
      ret None
  | api_v2.SamplingStrategyType_PROBABILISTIC => ret (Some s)
  end.

(** One turn of the loop over [strategy.OperationStrategies]. *)
Definition appendOperationStrategy
    (opS : api_v2.PerOperationSamplingStrategies) (o : operationStrategy)
  : Logged api_v2.PerOperationSamplingStrategies :=
  r <- parseOperationStrategy o opS ;;
  match r with
  | None => ret opS
  | Some s =>
      ret {| api_v2.DefaultSamplingProbability :=
               api_v2.DefaultSamplingProbability opS;
             api_v2.PerOperationStrategies :=
               api_v2.PerOperationStrategies opS ++
               [ {| api_v2.Operation := Operation o;
                    api_v2.OperationProbabilisticSampling :=
                      api_v2.ProbabilisticSampling s |} ] |}
  end.

Definition withOperationSampling (resp : api_v2.SamplingStrategyResponse)
    (opS : option api_v2.PerOperationSamplingStrategies)
  : api_v2.SamplingStrategyResponse :=
  {| api_v2.StrategyType := api_v2.StrategyType resp;
     api_v2.ProbabilisticSampling := api_v2.ProbabilisticSampling resp;
     api_v2.RateLimitingSampling := api_v2.RateLimitingSampling resp;
     api_v2.OperationSampling := opS |}.

(** [resp.ProbabilisticSampling.SamplingRate] under the guard
    [resp.StrategyType == PROBABILISTIC]; [parseStrategy] never leaves the
    pointer [nil] there (lemma [parseStrategy_probabilistic]). *)
Definition initialOperationSampling (resp : api_v2.SamplingStrategyResponse)
  : api_v2.PerOperationSamplingStrategies :=
  {| api_v2.DefaultSamplingProbability :=
       match api_v2.StrategyType resp, api_v2.ProbabilisticSampling resp with
       | api_v2.SamplingStrategyType_PROBABILISTIC, Some p =>
           api_v2.SamplingRate p
       | _, _ => defaultSamplingProbability
       end;
     api_v2.PerOperationStrategies := [] |}.

Definition parseServiceStrategies (s : serviceStrategy)
  : Logged api_v2.SamplingStrategyResponse :=
  resp <- parseStrategy (svc_strategy s) ;;
  if decide (length (OperationStrategies s) = 0) then ret resp
  else
    opS <- rangeM appendOperationStrategy (OperationStrategies s)
             (initialOperationSampling resp) ;;
    ret (withOperationSampling resp (Some opS)).

(** The map [m] of the merge: the operations of [a], each mapped to
    [true]. *)
Definition operationsOf (a : list api_v2.OperationSamplingStrategy)
  : gmap string bool :=
  foldl (fun m aOp => <[api_v2.Operation aOp := true]> m) ∅ a.

(** [m[k]] on a [map[string]bool]: [false] for a missing key. *)
Definition index (m : gmap string bool) (k : string) : bool :=
  default false (m !! k).

Definition mergePerOperationSamplingStrategies
    (a b : list api_v2.OperationSamplingStrategy)
  : list api_v2.OperationSamplingStrategy :=
  let m := operationsOf a in
  foldl (fun a bOp => if index m (api_v2.Operation bOp) then a
                      else a ++ [bOp]) a b.

(** The snapshot. *)
Record storedStrategies := {
  defaultStrategy : api_v2.SamplingStrategyResponse;
  serviceStrategies : gmap string api_v2.SamplingStrategyResponse
}.

(** Modelled from the spec: [defaultStrategies()] is declared outside
    [strategy_store.go]; the bootstrap snapshot has the bootstrap default
    and no service. *)
Definition defaultStrategies : storedStrategies :=
  {| defaultStrategy := defaultStrategyResponse;
     serviceStrategies := ∅ |}.

(** [merge] of [parseStrategies]. *)
Definition mergeEnabled (d : api_v2.SamplingStrategyResponse) : bool :=
  match api_v2.OperationSampling d with
  | None => false
  | Some opS =>
      match api_v2.PerOperationStrategies opS with
      | [] => false
      | _ :: _ => true
      end
  end.

(** [newStore.defaultStrategy.OperationSampling.PerOperationStrategies],
    read only where [merge] holds, that is where the table is there. *)
Definition defaultPerOperationStrategies
    (d : api_v2.SamplingStrategyResponse)
  : list api_v2.OperationSamplingStrategy :=
  match api_v2.OperationSampling d with
  | Some dOpS => api_v2.PerOperationStrategies dOpS
  | None => []
  end.

(** What the body of the loop over [strategies.ServiceStrategies] leaves in
    [newStore.serviceStrategies[s.Service]], given the default [d] and the
    response [resp] that [parseServiceStrategies] built for [s]: the
    response is put in the map and then changed through the pointer. *)
Definition resolveService (d resp : api_v2.SamplingStrategyResponse)
  : api_v2.SamplingStrategyResponse :=
  match api_v2.OperationSampling resp with
  | None =>
      match api_v2.OperationSampling d, api_v2.ProbabilisticSampling resp with
      | None, _ | _, None => resp
      | Some dOpS, Some p =>
          let newOpS :=
            {| api_v2.DefaultSamplingProbability := api_v2.SamplingRate p;
               api_v2.PerOperationStrategies :=
                 api_v2.PerOperationStrategies dOpS |} in
          withOperationSampling resp (Some newOpS)
      end
  | Some opS =>
      if mergeEnabled d then
        withOperationSampling resp
          (Some {| api_v2.DefaultSamplingProbability :=
                     api_v2.DefaultSamplingProbability opS;
                   api_v2.PerOperationStrategies :=
                     mergePerOperationSamplingStrategies
                       (api_v2.PerOperationStrategies opS)
                       (defaultPerOperationStrategies d) |})
      else resp
  end.

Definition serviceLoopBody (newStore : storedStrategies) (s : serviceStrategy)
  : Logged storedStrategies :=
  resp <- parseServiceStrategies s ;;
  ret {| defaultStrategy := defaultStrategy newStore;
         serviceStrategies :=
           <[Service s := resolveService (defaultStrategy newStore) resp]>
             (serviceStrategies newStore) |}.

(** [parseStrategies] from [newStore := defaultStrategies()] up to, and not
    including, [h.storedStrategies.Store(newStore)]. *)
Definition buildStore (cfg : strategies) : Logged storedStrategies :=
  newStore <-
    match DefaultStrategy cfg with
    | Some d =>
        resp <- parseServiceStrategies d ;;
        ret {| defaultStrategy := resp;
               serviceStrategies := serviceStrategies defaultStrategies |}
    | None => ret defaultStrategies
    end ;;
  rangeM serviceLoopBody (ServiceStrategies cfg) newStore.

End Resolver.

(** ** What the store reads from outside *)

(** [json.Unmarshal] on the bytes of a strategies document: a decoding error,
    the literal [null], or a document. *)
Inductive jsonResult :=
| JsonError (cause : string)
| JsonNull
| JsonValue (doc : strategies).

(** [url.Parse]: the two fields of the parsed URL that [isURL] reads. *)
Record URL := {
  Scheme : string;
  Host : string
}.

(** What [resp.Body] gives when read to the end. *)
Inductive bodyResult :=
| BodyRead (body : string)
| BodyError (cause : string).

(** What [http.Get] gives. *)
Inductive httpResult :=
| HttpError (cause : string)
| HttpResponse (StatusCode : Z) (Status : string) (Body : bodyResult).

(** What [os.ReadFile (filepath.Clean f)] gives. *)
Inductive fileResult :=
| FileRead (currBytes : string)
| FileError (cause : string).

(** The outside world at the moment of one call of a loader. *)
Record world := {
  httpGet : string -> httpResult;
  readFile : string -> fileResult
}.

Definition StatusOK : Z := 200.
Definition StatusServiceUnavailable : Z := 503.

(** [null represents "null" JSON value]. *)
Definition nullJSON : string := "null".

(** Options of the store. [ReloadInterval] is a [time.Duration], a number of
    nanoseconds. *)
Record Options := {
  StrategiesFile : string;
  ReloadInterval : Z
}.

(** ** The store *)

Section Store.

Variable defaultSamplingProbability : float.

(** [encoding/json] and [net/url] are libraries; the store is kept generic
    in what they compute. *)
Variable jsonUnmarshal : string -> jsonResult.
Variable url_Parse : string -> option URL.

(** [storedStrategies] is the [atomic.Value]: the address of the snapshot
    it points to and the snapshot. [allocated] counts the snapshots built
    so far, and is the address the next one gets. [cancelled] tells whether
    [cancelFunc] was called. *)
Record strategyStore := {
  logger : list logEntry;
  storedStrategiesV : nat * storedStrategies;
  allocated : nat;
  cancelled : bool
}.

Definition log (h : strategyStore) (l : list logEntry) : strategyStore :=
  {| logger := logger h ++ l;
     storedStrategiesV := storedStrategiesV h;
     allocated := allocated h;
     cancelled := cancelled h |}.

(** [h.storedStrategies.Load().( *storedStrategies)] *)
Definition Load (h : strategyStore) : storedStrategies :=
  snd (storedStrategiesV h).

(** The address held by the [atomic.Value]. *)
Definition LoadRef (h : strategyStore) : nat :=
  fst (storedStrategiesV h).

Definition GetSamplingStrategy (h : strategyStore) (serviceName : string)
  : (api_v2.SamplingStrategyResponse * option error) * strategyStore :=
  let ss := Load h in
  match serviceStrategies ss !! serviceName with
  | Some strategy => ((strategy, None), h)
  | None =>
      ((defaultStrategy ss, None), log h [Debug_notFound serviceName])
  end.

Definition Close (h : strategyStore) : strategyStore :=
  {| logger := logger h;
     storedStrategiesV := storedStrategiesV h;
     allocated := allocated h;
     cancelled := true |}.

Definition downloadSamplingStrategies (h : strategyStore) (w : world)
    (url : string) : (string + error) * strategyStore :=
  let h := log h [Info_downloading url] in
  match httpGet w url with
  | HttpError cause => (inr (ErrDownload cause), h)
  | HttpResponse code status (BodyError cause) =>
      (inr (ErrReadBody cause), h)
  | HttpResponse code status (BodyRead buf) =>
      if decide (code = StatusServiceUnavailable) then (inl nullJSON, h)
      else if decide (code <> StatusOK) then (inr (ErrStatus status buf), h)
      else (inl buf, h)
  end.

Definition isURL (str : string) : bool :=
  match url_Parse str with
  | Some u => bool_decide (Scheme u <> "") && bool_decide (Host u <> "")
  | None => false
  end.

(** A [strategyLoader]: the closure is called in a world and logs through
    [h]. *)
Definition strategyLoader : Type :=
  strategyStore -> world -> (string + error) * strategyStore.

Definition samplingStrategyLoader (strategiesFile : string)
  : strategyLoader :=
  if isURL strategiesFile then
    fun h w => downloadSamplingStrategies h w strategiesFile
  else
    fun h w =>
      let h := log h [Info_loading strategiesFile] in
      match readFile w strategiesFile with
      | FileError cause => (inr (ErrReadFile strategiesFile cause), h)
      | FileRead currBytes => (inl currBytes, h)
      end.

(** [parseStrategies]: [nil] leaves the store as it is; otherwise a new
    snapshot is built and stored. *)
Definition parseStrategies (h : strategyStore) (strategies : option strategies)
  : strategyStore :=
  match strategies with
  | None => log h [Info_noStrategies]
  | Some cfg =>
      let '(newStore, l) := buildStore defaultSamplingProbability cfg in
      {| logger := logger h ++ l;
         storedStrategiesV := (allocated h, newStore);
         allocated := S (allocated h);
         cancelled := cancelled h |}
  end.

(** [var strategies *strategies]: [null] leaves the pointer [nil]. *)
Definition loadStrategies (loadFn : strategyLoader) (h : strategyStore)
    (w : world) : (option strategies + error) * strategyStore :=
  match loadFn h w with
  | (inr err, h) => (inr err, h)
  | (inl strategyBytes, h) =>
      match jsonUnmarshal strategyBytes with
      | JsonError cause => (inr (ErrUnmarshalStrategies cause), h)
      | JsonNull => (inl None, h)
      | JsonValue doc => (inl (Some doc), h)
      end
  end.

(** [var strategies strategies]: [null] leaves the zero value, and
    [&strategies] is never [nil]. *)
Definition updateSamplingStrategy (h : strategyStore) (bytes : string)
  : option error * strategyStore :=
  match jsonUnmarshal bytes with
  | JsonError cause => (Some (ErrUnmarshalSamplingStrategies cause), h)
  | JsonNull =>
      let h := parseStrategies h (Some zeroStrategies) in
      (None, log h [Info_updated bytes])
  | JsonValue doc =>
      let h := parseStrategies h (Some doc) in
      (None, log h [Info_updated bytes])
  end.

Definition reloadSamplingStrategy (h : strategyStore) (loadFn : strategyLoader)
    (w : world) (lastValue : string) : string * strategyStore :=
  match loadFn h w with
  | (inr err, h) => (lastValue, log h [Error_reload err])
  | (inl newValue, h) =>
      if decide (lastValue = newValue) then (lastValue, h)
      else
        match updateSamplingStrategy h newValue with
        | (Some err, h) => (lastValue, log h [Error_update err])
        | (None, h) => (newValue, h)
        end
  end.

(** What the [select] of the reload loop receives: a tick of the ticker, in
    the world of that moment, or the cancellation of the context. *)
Inductive event :=
| Tick (w : world)
| Done.

(** The loop of [autoUpdateStrategies], from a value of [lastValue], over
    the events that arrive; the loop returns at the first [Done], and the
    run is cut where the events end. *)
Fixpoint autoUpdateLoop (loader : strategyLoader) (events : list event)
    (lastValue : string) (h : strategyStore) : string * strategyStore :=
  match events with
  | [] => (lastValue, h)
  | Done :: _ => (lastValue, h)
  | Tick w :: events' =>
      let '(lastValue, h) := reloadSamplingStrategy h loader w lastValue in
      autoUpdateLoop loader events' lastValue h
  end.

Definition autoUpdateStrategies (loader : strategyLoader)
    (events : list event) (h : strategyStore) : string * strategyStore :=
  let lastValue := nullJSON in
  autoUpdateLoop loader events lastValue h.

(** The store as [NewStrategyStore] has it after
    [h.storedStrategies.Store(defaultStrategies())]: it holds the bootstrap
    snapshot, the first one built. The [logger] argument is the log so
    far. *)
Definition initialStore (logger0 : list logEntry) : strategyStore :=
  {| logger := logger0;
     storedStrategiesV := (0, defaultStrategies defaultSamplingProbability);
     allocated := 1;
     cancelled := false |}.

(** [NewStrategyStore] in the world [w] of the first load. The result is
    the pair [(store, err)] of the Go function; with the store comes the
    loader handed to the goroutine of [autoUpdateStrategies], if one is
    started. What was logged before a failure is not part of the result. *)
Definition NewStrategyStore (options : Options) (logger0 : list logEntry)
    (w : world)
  : option (strategyStore * option strategyLoader) * option error :=
  let h := initialStore logger0 in
  if decide (StrategiesFile options = "") then
    let h := parseStrategies h None in
    (Some (h, None), None)
  else
    let loadFn := samplingStrategyLoader (StrategiesFile options) in
    match loadStrategies loadFn h w with
    | (inr err, _) => (None, Some err)
    | (inl strategies, h) =>
        let h := parseStrategies h strategies in
        if decide (ReloadInterval options > 0)%Z
        then (Some (h, Some loadFn), None)
        else (Some (h, None), None)
    end.

End Store.

(** ** Predicates of the statements *)

(** The entries of the per-operation table of a response, none when the
    response has no table. *)
Definition perOperationEntries (r : api_v2.SamplingStrategyResponse)
  : list api_v2.OperationSamplingStrategy :=
  match api_v2.OperationSampling r with
  | Some opS => api_v2.PerOperationStrategies opS
  | None => []
  end.

Definition operationNames (l : list api_v2.OperationSamplingStrategy)
  : list string :=
  api_v2.Operation <$> l.

(** At most one entry per operation name. *)
Definition uniqueOperations (r : api_v2.SamplingStrategyResponse) : Prop :=
  NoDup (operationNames (perOperationEntries r)).

Definition snapshotUnique (st : storedStrategies) : Prop :=
  uniqueOperations (defaultStrategy st) /\
  forall name r, serviceStrategies st !! name = Some r -> uniqueOperations r.

(** The overrides of a list that the resolver keeps: those whose type is not
    rate limiting. *)
Definition retained (ops : list operationStrategy) : list operationStrategy :=
  filter (fun o => Type_ (op_strategy o) <> samplerTypeRateLimiting) ops.

(** No operation name occurs twice among the overrides a strategy keeps. *)
Definition distinctOverrides (s : serviceStrategy) : Prop :=
  NoDup (Operation <$> retained (OperationStrategies s)).

Definition distinctInput (cfg : strategies) : Prop :=
  (forall d, DefaultStrategy cfg = Some d -> distinctOverrides d) /\
  (forall s, s ∈ ServiceStrategies cfg -> distinctOverrides s).

(** The same service strategy with other operation overrides. *)
Definition withOperationStrategies (s : serviceStrategy)
    (ops : list operationStrategy) : serviceStrategy :=
  {| Service := Service s;
     OperationStrategies := ops;
     svc_strategy := svc_strategy s |}.

(** The entry the resolver appends for an override it keeps. *)
Definition entryOf (defaultSamplingProbability : float) (o : operationStrategy)
  : api_v2.OperationSamplingStrategy :=
  {| api_v2.Operation := Operation o;
     api_v2.OperationProbabilisticSampling :=
       api_v2.ProbabilisticSampling
         (parseStrategy defaultSamplingProbability (op_strategy o)).1 |}.

(** The warning for an override that is dropped, under a table whose default
    probability is [probability]. *)
Definition droppedWarning (probability : float) (o : operationStrategy)
  : logEntry :=
  Warn_operationRateLimiting (Operation o) probability o.

(** What one override makes the resolver log, under a table whose default
    probability is [probability]. *)
Definition operationLog (defaultSamplingProbability probability : float)
    (o : operationStrategy) : list logEntry :=
  (parseStrategy defaultSamplingProbability (op_strategy o)).2 ++
  if decide (Type_ (op_strategy o) = samplerTypeRateLimiting)
  then [droppedWarning probability o] else [].

(** The default strategy of the snapshot built from a document. *)
Definition resolvedDefault (defaultSamplingProbability : float)
    (cfg : strategies) : api_v2.SamplingStrategyResponse :=
  match DefaultStrategy cfg with
  | Some d => (parseServiceStrategies defaultSamplingProbability d).1
  | None => defaultStrategyResponse defaultSamplingProbability
  end.

(** The strategy the snapshot holds for a service strategy [s] that no later
    one of the document overwrites. *)
Definition resolvedService (defaultSamplingProbability : float)
    (cfg : strategies) (s : serviceStrategy) : api_v2.SamplingStrategyResponse :=
  resolveService (resolvedDefault defaultSamplingProbability cfg)
    (parseServiceStrategies defaultSamplingProbability s).1.

(** ** Concrete instances for the examples *)

Module Sample.

(** The value of [defaultSamplingProbability] in the examples. *)
Definition probability : float := 0.001.

Definition probabilistic (param : float) : strategy :=
  {| Type_ := "probabilistic"; Param := param |}.

Definition rateLimiting (param : float) : strategy :=
  {| Type_ := "ratelimiting"; Param := param |}.

Definition override (operation : string) (s : strategy) : operationStrategy :=
  {| Operation := operation; op_strategy := s |}.

(** [{"default_strategy":{"type":"probabilistic","param":0.5}}] *)
Definition quoted (s : string) : string :=
  let q := String (Ascii.ascii_of_nat 34) EmptyString in
  q +:+ s +:+ q.

Definition halfText : string :=
  "{" +:+ quoted "default_strategy" +:+ ":{" +:+
  quoted "type" +:+ ":" +:+ quoted "probabilistic" +:+ "," +:+
  quoted "param" +:+ ":0.5}}".

Definition halfDoc : strategies :=
  {| DefaultStrategy :=
       Some {| Service := ""; OperationStrategies := [];
               svc_strategy := probabilistic 0.5 |};
     ServiceStrategies := [] |}.

(** [encoding/json] on the three texts of the examples: the literal
    [null], the document [halfText], and a text that is not JSON. *)
Definition jsonUnmarshal (bytes : string) : jsonResult :=
  if decide (bytes = nullJSON) then JsonNull
  else if decide (bytes = halfText) then JsonValue halfDoc
  else JsonError "invalid character".

Definition strategiesURL : string := "http://collector.test/strategies.json".
Definition strategiesPath : string := "strategies.json".

(** [net/url] on the two sources of the examples: an absolute URL, and a
    relative path, which parses to a URL with neither scheme nor host. *)
Definition url_Parse (str : string) : option URL :=
  if decide (str = strategiesURL)
  then Some {| Scheme := "http"; Host := "collector.test" |}
  else Some {| Scheme := ""; Host := "" |}.

(** A world whose URL answers [code] with [body] and whose file holds
    [body]. *)
Definition serving (code : Z) (status body : string) : world :=
  {| httpGet := fun _ => HttpResponse code status (BodyRead body);
     readFile := fun _ => FileRead body |}.

Definition ok (body : string) : world := serving 200 "200 OK" body.

Definition unavailable : world :=
  serving 503 "503 Service Unavailable" "".

(** A world in which neither the URL nor the file can be read. *)
Definition broken : world :=
  {| httpGet := fun _ => HttpError "connection refused";
     readFile := fun _ => FileError "no such file or directory" |}.

Definition options : Options :=
  {| StrategiesFile := strategiesURL; ReloadInterval := 1000000000 |}.

Definition entry (operation : string) (rate : float)
  : api_v2.OperationSamplingStrategy :=
  {| api_v2.Operation := operation;
     api_v2.OperationProbabilisticSampling :=
       Some {| api_v2.SamplingRate := rate |} |}.

Definition service (name : string) (s : strategy)
    (ops : list operationStrategy) : serviceStrategy :=
  {| Service := name; OperationStrategies := ops; svc_strategy := s |}.

(** The default has the overrides [A:0.1, B:0.2]; [foo] overrides [A] with
    [0.9]; [bar] and [baz] have no override, and [baz] is rate limiting. *)
Definition foo : serviceStrategy :=
  service "foo" (probabilistic 0.8) [override "A" (probabilistic 0.9)].

Definition bar : serviceStrategy := service "bar" (probabilistic 0.7) [].

Definition baz : serviceStrategy := service "baz" (rateLimiting 5) [].

Definition mergeDoc : strategies :=
  {| DefaultStrategy :=
       Some (service "" (probabilistic 0.5)
               [override "A" (probabilistic 0.1);
                override "B" (probabilistic 0.2)]);
     ServiceStrategies := [foo; bar; baz] |}.

(** The default names the operation [op1] twice. *)
Definition duplicateDoc : strategies :=
  {| DefaultStrategy :=
       Some (service "" (probabilistic 0.5)
               [override "op1" (probabilistic 0.1);
                override "op1" (probabilistic 0.2)]);
     ServiceStrategies := [] |}.

(** The inheritance example of the specification: neither the default nor
    [foo] has an override. *)
Definition plainDoc : strategies :=
  {| DefaultStrategy := Some (service "" (probabilistic 0.5) []);
     ServiceStrategies := [service "foo" (probabilistic 0.8) []] |}.

(** The full example of the specification. *)
Definition fullDoc : strategies :=
  {| DefaultStrategy := Some (service "" (probabilistic 0.5) []);
     ServiceStrategies :=
       [service "foo" (probabilistic 0.8)
          [override "op1" (probabilistic 0.2)]] |}.

(** A strategy of a type the resolver does not know. *)
Definition adaptive : strategy := {| Type_ := "adaptive"; Param := 0.3 |}.

End Sample.

(** ** Further predicates *)

(** The first entry of a list for an operation, which is the one a client
    that scans the list finds. *)
Definition firstEntry (k : string) (l : list api_v2.OperationSamplingStrategy)
  : option api_v2.OperationSamplingStrategy :=
  List.find (fun e => bool_decide (api_v2.Operation e = k)) l.

(** Exactly one of the two strategies of a response is set, the one its type
    names, and a rate limit is an [int32]. *)
Definition wellTyped (r : api_v2.SamplingStrategyResponse) : Prop :=
  match api_v2.StrategyType r with
  | api_v2.SamplingStrategyType_PROBABILISTIC =>
      is_Some (api_v2.ProbabilisticSampling r) /\
      api_v2.RateLimitingSampling r = None
  | api_v2.SamplingStrategyType_RATE_LIMITING =>
      api_v2.ProbabilisticSampling r = None /\
      exists n, api_v2.RateLimitingSampling r =
                  Some {| api_v2.MaxTracesPerSecond := n |} /\
                (- 2 ^ 31 <= n < 2 ^ 31)%Z
  end.

(** Every entry of the table of a response carries a probabilistic
    strategy. *)
Definition entriesProbabilistic (r : api_v2.SamplingStrategyResponse) : Prop :=
  Forall (fun e => is_Some (api_v2.OperationProbabilisticSampling e))
         (perOperationEntries r).

(** The default probability of the table of a response is the rate of the
    response if it has one, and [defaultSamplingProbability] otherwise. *)
Definition tableFollowsRate (defaultSamplingProbability : float)
    (r : api_v2.SamplingStrategyResponse) : Prop :=
  forall opS,
    api_v2.OperationSampling r = Some opS ->
    api_v2.DefaultSamplingProbability opS =
    match api_v2.ProbabilisticSampling r with
    | Some pr => api_v2.SamplingRate pr
    | None => defaultSamplingProbability
    end.

(** A property of every strategy of a snapshot. *)
Definition snapshotAll (P : api_v2.SamplingStrategyResponse -> Prop)
    (st : storedStrategies) : Prop :=
  P (defaultStrategy st) /\
  forall name r, serviceStrategies st !! name = Some r -> P r.

(** A strategy the resolver resolves without a warning: its type is one of
    the two it knows, and its overrides are probabilistic. *)
Definition quietStrategy (s : serviceStrategy) : Prop :=
  (Type_ (svc_strategy s) = samplerTypeProbabilistic \/
   Type_ (svc_strategy s) = samplerTypeRateLimiting) /\
  Forall (fun o => Type_ (op_strategy o) = samplerTypeProbabilistic)
         (OperationStrategies s).

Definition quietDocument (cfg : strategies) : Prop :=
  (forall d, DefaultStrategy cfg = Some d -> quietStrategy d) /\
  Forall quietStrategy (ServiceStrategies cfg).

Definition isWarning (e : logEntry) : Prop :=
  match e with
  | Warn_operationRateLimiting _ _ _ | Warn_failedToParse _ => True
  | _ => False
  end.

(** The address the store holds was handed out before. *)
Definition wellFormedStore (h : strategyStore) : Prop :=
  LoadRef h < allocated h.

(** * Properties *)

(** ** Logging computations *)

Lemma bind_ret_l {A B} (a : A) (k : A -> Logged B) : bind (ret a) k = k a.
Proof. unfold bind, ret. by destruct (k a). Qed.

Lemma bind_fst {A B} (c : Logged A) (k : A -> Logged B) :
  (bind c k).1 = (k c.1).1.
Proof. destruct c as [a l1]. simpl. by destruct (k a). Qed.

Lemma bind_snd {A B} (c : Logged A) (k : A -> Logged B) :
  (bind c k).2 = c.2 ++ (k c.1).2.
Proof. destruct c as [a l1]. simpl. by destruct (k a). Qed.

Lemma rangeM_app {A S} (body : S -> A -> Logged S) (xs ys : list A) (acc : S) :
  rangeM body (xs ++ ys) acc = bind (rangeM body xs acc) (rangeM body ys).
Proof.
  revert acc. induction xs as [|x xs IH]; intros acc.
  - change (rangeM body [] acc) with (ret (A:=S) acc). by rewrite bind_ret_l.
  - simpl. destruct (body acc x) as [acc1 l1]. simpl. rewrite IH.
    destruct (rangeM body xs acc1) as [acc2 l2]. simpl.
    destruct (rangeM body ys acc2) as [acc3 l3]. by rewrite app_assoc.
Qed.

(** ** The merge *)

Section Merge.

Implicit Types a b : list api_v2.OperationSamplingStrategy.

Lemma operationsOf_from a (m : gmap string bool) k :
  foldl (fun m aOp => <[api_v2.Operation aOp := true]> m) m a !! k =
  if decide (k ∈ operationNames a) then Some true else m !! k.
Proof.
  revert m. induction a as [|aOp a IH]; intros m.
  - destruct (decide (k ∈ operationNames [])) as [Hin|_]; [|done].
    by apply elem_of_nil in Hin.
  - cbn [foldl]. rewrite IH.
    assert (Hcons : k ∈ operationNames (aOp :: a) <->
                    k = api_v2.Operation aOp \/ k ∈ operationNames a)
      by apply elem_of_cons.
    destruct (decide (k ∈ operationNames a)) as [Ha|Ha],
             (decide (k ∈ operationNames (aOp :: a))) as [Hc|Hc];
      try done; try tauto.
    + apply Hcons in Hc as [->|Hc]; [|done]. apply lookup_insert_eq.
    + rewrite lookup_insert_ne; [done|]. intros <-. tauto.
Qed.

Lemma index_operationsOf a k :
  index (operationsOf a) k = bool_decide (k ∈ operationNames a).
Proof.
  unfold index, operationsOf. rewrite operationsOf_from, lookup_empty.
  by case_decide; case_bool_decide.
Qed.

(** The loop over [b] appends to whatever [a] has become, while [m] stays
    the map built from the first [a]. *)
Lemma merge_loop (m : gmap string bool) a b :
  foldl (fun a bOp => if index m (api_v2.Operation bOp) then a
                      else a ++ [bOp]) a b =
  a ++ filter (fun bOp => index m (api_v2.Operation bOp) = false) b.
Proof.
  revert a. induction b as [|bOp b IH]; intros a; simpl.
  - by rewrite filter_nil, app_nil_r.
  - rewrite IH, filter_cons.
    destruct (index m (api_v2.Operation bOp)) eqn:Hm; case_decide; try done.
    by rewrite <- app_assoc.
Qed.

Lemma merge_filter a b :
  mergePerOperationSamplingStrategies a b =
  a ++ filter (fun bOp => api_v2.Operation bOp ∉ operationNames a) b.
Proof.
  unfold mergePerOperationSamplingStrategies. rewrite merge_loop. f_equal.
  apply list_filter_iff. intros bOp. rewrite index_operationsOf.
  by case_bool_decide.
Qed.

Lemma merge_nil_r a : mergePerOperationSamplingStrategies a [] = a.
Proof. reflexivity. Qed.

Lemma merge_again a b :
  mergePerOperationSamplingStrategies
    (mergePerOperationSamplingStrategies a b) b =
  mergePerOperationSamplingStrategies a b.
Proof.
  rewrite (merge_filter (mergePerOperationSamplingStrategies a b) b).
  assert (Hnil : forall c l,
    (forall x, x ∈ l -> api_v2.Operation x ∈ operationNames c) ->
    filter (fun x => api_v2.Operation x ∉ operationNames c) l = []).
  { intros c l Hc. induction l as [|x l IHl]; [done|].
    rewrite filter_cons_False; [apply IHl | ].
    - intros y Hy. apply Hc. by right.
    - intros Hx. apply Hx, Hc. by left. }
  rewrite Hnil; [by rewrite app_nil_r|].
  intros x Hx. rewrite merge_filter.
  unfold operationNames. rewrite fmap_app, elem_of_app.
  destruct (decide (api_v2.Operation x ∈ operationNames a)) as [Ha|Ha];
    [by left | right].
  apply list_elem_of_fmap_2. by apply list_elem_of_filter.
Qed.

Lemma operationNames_filter_NoDup (P : api_v2.OperationSamplingStrategy -> Prop)
    `{!forall x, Decision (P x)} b :
  NoDup (operationNames b) -> NoDup (operationNames (filter P b)).
Proof.
  unfold operationNames. induction b as [|x b IH]; [done|].
  rewrite fmap_cons, NoDup_cons. intros [Hx Hb]. rewrite filter_cons.
  case_decide; [|by apply IH].
  rewrite fmap_cons, NoDup_cons. split; [|by apply IH].
  intros Hin. apply Hx. apply list_elem_of_fmap in Hin as (y & -> & Hy).
  apply list_elem_of_fmap_2. by apply list_elem_of_filter in Hy as [_ Hy].
Qed.

Lemma merge_NoDup a b :
  NoDup (operationNames a) -> NoDup (operationNames b) ->
  NoDup (operationNames (mergePerOperationSamplingStrategies a b)).
Proof.
  intros Ha Hb. rewrite merge_filter. unfold operationNames.
  rewrite fmap_app. apply NoDup_app. split; [done|]. split.
  - intros k Hk Hin. apply list_elem_of_fmap in Hin as (y & -> & Hy).
    by apply list_elem_of_filter in Hy as [Hy _].
  - by apply operationNames_filter_NoDup.
Qed.

End Merge.

(** ** The resolver *)

Section ResolverFacts.

Variable p : float.

Lemma samplerTypes_distinct : samplerTypeProbabilistic <> samplerTypeRateLimiting.
Proof. discriminate. Qed.

Lemma parseStrategy_rateLimiting (s : strategy) :
  api_v2.StrategyType (parseStrategy p s).1 =
    api_v2.SamplingStrategyType_RATE_LIMITING <->
  Type_ s = samplerTypeRateLimiting.
Proof.
  unfold parseStrategy. pose proof samplerTypes_distinct.
  repeat case_decide; simpl; split; intros; congruence.
Qed.

(** Where the type is probabilistic the rate is there, which makes the
    dereference in [parseServiceStrategies] safe. *)
Lemma parseStrategy_probabilistic (s : strategy) :
  api_v2.StrategyType (parseStrategy p s).1 =
    api_v2.SamplingStrategyType_PROBABILISTIC <->
  is_Some (api_v2.ProbabilisticSampling (parseStrategy p s).1).
Proof.
  unfold parseStrategy.
  repeat case_decide; simpl; split; intros Hs; try done;
    try (by eexists); by destruct Hs.
Qed.

Lemma parseStrategy_no_table (s : strategy) :
  api_v2.OperationSampling (parseStrategy p s).1 = None.
Proof. unfold parseStrategy. by repeat case_decide. Qed.

Lemma appendOperationStrategy_eq opS (o : operationStrategy) :
  appendOperationStrategy p opS o =
  (if decide (Type_ (op_strategy o) = samplerTypeRateLimiting) then opS
   else {| api_v2.DefaultSamplingProbability :=
             api_v2.DefaultSamplingProbability opS;
           api_v2.PerOperationStrategies :=
             api_v2.PerOperationStrategies opS ++ [entryOf p o] |},
   operationLog p (api_v2.DefaultSamplingProbability opS) o).
Proof.
  unfold appendOperationStrategy, parseOperationStrategy, operationLog, entryOf.
  pose proof (parseStrategy_rateLimiting (op_strategy o)) as Hrl.
  destruct (parseStrategy p (op_strategy o)) as [s l] eqn:Hs. simpl in *.
  destruct (api_v2.StrategyType s) eqn:Ht; case_decide as Hd; simpl.
  - apply Hrl in Hd. congruence.
  - by rewrite !app_nil_r.
  - by rewrite !app_nil_r.
  - exfalso. apply Hd. by apply Hrl.
Qed.

(** The loop over the overrides: the default probability of the table
    stays, the entries of the overrides that are kept are appended in
    order, and every override logs what it logs alone. *)
Lemma rangeM_appendOperationStrategy (ops : list operationStrategy) opS :
  rangeM (appendOperationStrategy p) ops opS =
  ({| api_v2.DefaultSamplingProbability :=
        api_v2.DefaultSamplingProbability opS;
      api_v2.PerOperationStrategies :=
        api_v2.PerOperationStrategies opS ++ (entryOf p <$> retained ops) |},
   concat (operationLog p (api_v2.DefaultSamplingProbability opS) <$> ops)).
Proof.
  revert opS. induction ops as [|o ops IH]; intros opS.
  - destruct opS. simpl. by rewrite app_nil_r.
  - cbn [rangeM]. rewrite appendOperationStrategy_eq. unfold bind at 1.
    rewrite IH. unfold retained. rewrite filter_cons. fold (retained ops).
    rewrite fmap_cons. cbn [concat].
    destruct (decide (Type_ (op_strategy o) = samplerTypeRateLimiting))
      as [Hd|Hd]; case_decide; try done; simpl.
    by rewrite <- app_assoc.
Qed.

(** The response [parseServiceStrategies] builds. *)
Lemma parseServiceStrategies_fst (s : serviceStrategy) :
  (parseServiceStrategies p s).1 =
  let resp := (parseStrategy p (svc_strategy s)).1 in
  match OperationStrategies s with
  | [] => resp
  | _ :: _ =>
      withOperationSampling resp
        (Some {| api_v2.DefaultSamplingProbability :=
                   api_v2.DefaultSamplingProbability
                     (initialOperationSampling p resp);
                 api_v2.PerOperationStrategies :=
                   entryOf p <$> retained (OperationStrategies s) |})
  end.
Proof.
  unfold parseServiceStrategies. rewrite bind_fst.
  destruct (OperationStrategies s) as [|o ops] eqn:Hops; [done|].
  case_decide; [done|]. rewrite bind_fst, rangeM_appendOperationStrategy.
  done.
Qed.

Lemma perOperationEntries_parseServiceStrategies (s : serviceStrategy) :
  perOperationEntries (parseServiceStrategies p s).1 =
  entryOf p <$> retained (OperationStrategies s).
Proof.
  rewrite parseServiceStrategies_fst. unfold perOperationEntries.
  destruct (OperationStrategies s); simpl; [|done].
  by rewrite parseStrategy_no_table.
Qed.

Lemma parseServiceStrategies_type (s : serviceStrategy) :
  api_v2.StrategyType (parseServiceStrategies p s).1 =
    api_v2.StrategyType (parseStrategy p (svc_strategy s)).1 /\
  api_v2.ProbabilisticSampling (parseServiceStrategies p s).1 =
    api_v2.ProbabilisticSampling (parseStrategy p (svc_strategy s)).1 /\
  api_v2.RateLimitingSampling (parseServiceStrategies p s).1 =
    api_v2.RateLimitingSampling (parseStrategy p (svc_strategy s)).1.
Proof.
  rewrite parseServiceStrategies_fst. by destruct (OperationStrategies s).
Qed.

Lemma parseServiceStrategies_table (s : serviceStrategy) :
  api_v2.OperationSampling (parseServiceStrategies p s).1 = None <->
  OperationStrategies s = [].
Proof.
  rewrite parseServiceStrategies_fst.
  destruct (OperationStrategies s); simpl; [|done].
  by rewrite parseStrategy_no_table.
Qed.

End ResolverFacts.

(** ** The snapshot built from a document *)

Section SnapshotFacts.

Variable p : float.

Lemma rangeM_serviceLoopBody (l : list serviceStrategy) (st : storedStrategies) :
  (rangeM (serviceLoopBody p) l st).1 =
  {| defaultStrategy := defaultStrategy st;
     serviceStrategies :=
       foldl (fun m s =>
                <[Service s := resolveService (defaultStrategy st)
                                 (parseServiceStrategies p s).1]> m)
             (serviceStrategies st) l |}.
Proof.
  revert st. induction l as [|s l IH]; intros st.
  - by destruct st.
  - cbn [rangeM foldl]. rewrite bind_fst.
    unfold serviceLoopBody at 2. rewrite bind_fst. cbn [ret fst].
    by rewrite IH.
Qed.

Lemma buildStore_fst (cfg : strategies) :
  (buildStore p cfg).1 =
  {| defaultStrategy := resolvedDefault p cfg;
     serviceStrategies :=
       foldl (fun m s => <[Service s := resolvedService p cfg s]> m)
             ∅ (ServiceStrategies cfg) |}.
Proof.
  unfold buildStore, resolvedService, resolvedDefault.
  rewrite bind_fst, rangeM_serviceLoopBody.
  by destruct (DefaultStrategy cfg) as [d|]; [rewrite bind_fst|].
Qed.

Lemma buildStore_default (cfg : strategies) :
  defaultStrategy (buildStore p cfg).1 = resolvedDefault p cfg.
Proof. by rewrite buildStore_fst. Qed.

(** A later service strategy of the same name overwrites an earlier one. *)
Lemma services_lookup_last {V} (f : serviceStrategy -> V)
    (l1 l2 : list serviceStrategy) (s : serviceStrategy) (m : gmap string V) :
  Service s ∉ Service <$> l2 ->
  foldl (fun m s => <[Service s := f s]> m) m (l1 ++ s :: l2) !! Service s =
  Some (f s).
Proof.
  rewrite foldl_app. cbn [foldl].
  generalize (foldl (fun m s => <[Service s := f s]> m) m l1). intros m1.
  revert m1. induction l2 as [|s2 l2 IH]; intros m1 Hnot.
  - apply lookup_insert_eq.
  - cbn [foldl]. rewrite fmap_cons, not_elem_of_cons in Hnot.
    destruct Hnot as [Hne Hnot].
    rewrite (insert_insert_ne m1); [by apply IH | done].
Qed.

(** Whatever the map holds was put there for some service strategy. *)
Lemma services_lookup_Some {V} (f : serviceStrategy -> V)
    (l : list serviceStrategy) (m : gmap string V) name (r : V) :
  foldl (fun m s => <[Service s := f s]> m) m l !! name = Some r ->
  m !! name = Some r \/ exists s, s ∈ l /\ Service s = name /\ r = f s.
Proof.
  revert m. induction l as [|s l IH]; intros m Hr; [by left|].
  cbn [foldl] in Hr. apply IH in Hr as [Hr|(s' & Hin & Hn & Hf)].
  - destruct (decide (Service s = name)) as [Heq|Hne].
    + rewrite <- Heq, lookup_insert_eq in Hr. right. exists s.
      split; [by left|]. split; congruence.
    + rewrite lookup_insert_ne in Hr by done. by left.
  - right. exists s'. split; [by right | done].
Qed.

Lemma buildStore_lookup_last (cfg : strategies) l1 s l2 :
  ServiceStrategies cfg = l1 ++ s :: l2 ->
  Service s ∉ Service <$> l2 ->
  serviceStrategies (buildStore p cfg).1 !! Service s =
  Some (resolvedService p cfg s).
Proof.
  intros Hl Hnot. rewrite buildStore_fst. cbn [serviceStrategies].
  rewrite Hl. by apply services_lookup_last.
Qed.

Lemma buildStore_lookup_Some (cfg : strategies) name r :
  serviceStrategies (buildStore p cfg).1 !! name = Some r ->
  exists s, s ∈ ServiceStrategies cfg /\ Service s = name /\
            r = resolvedService p cfg s.
Proof.
  rewrite buildStore_fst. cbn [serviceStrategies]. intros Hr.
  apply services_lookup_Some in Hr as [Hr|Hr]; [|done].
  by rewrite lookup_empty in Hr.
Qed.

Lemma services_lookup_is_Some {V} (f : serviceStrategy -> V)
    (l : list serviceStrategy) (m : gmap string V) name :
  is_Some (m !! name) \/ name ∈ Service <$> l ->
  is_Some (foldl (fun m s => <[Service s := f s]> m) m l !! name).
Proof.
  revert m. induction l as [|s l IH]; intros m Hn.
  - destruct Hn as [Hn|Hn]; [done | by apply elem_of_nil in Hn].
  - cbn [foldl]. apply IH. rewrite fmap_cons, elem_of_cons in Hn.
    destruct (decide (Service s = name)) as [<-|Hne].
    + left. by rewrite lookup_insert_eq.
    + rewrite lookup_insert_ne by done.
      destruct Hn as [Hn|[Hn|Hn]]; [by left | congruence | by right].
Qed.

(** Every service strategy of the document has an entry in the snapshot. *)
Lemma buildStore_lookup_is_Some (cfg : strategies) s :
  s ∈ ServiceStrategies cfg ->
  is_Some (serviceStrategies (buildStore p cfg).1 !! Service s).
Proof.
  intros Hin. rewrite buildStore_fst. cbn [serviceStrategies].
  apply services_lookup_is_Some. right. by apply list_elem_of_fmap_2.
Qed.

End SnapshotFacts.

(** ** Merge precedence and uniqueness of operation names *)

Lemma operationNames_entryOf (p : float) (ops : list operationStrategy) :
  operationNames (entryOf p <$> ops) = Operation <$> ops.
Proof.
  unfold operationNames. rewrite <- list_fmap_compose. by apply list_fmap_ext.
Qed.

Lemma perOperationEntries_resolveService (d resp : api_v2.SamplingStrategyResponse) :
  perOperationEntries (resolveService d resp) =
  match api_v2.OperationSampling resp with
  | None =>
      match api_v2.ProbabilisticSampling resp with
      | Some _ => perOperationEntries d
      | None => []
      end
  | Some opS =>
      if mergeEnabled d
      then mergePerOperationSamplingStrategies
             (api_v2.PerOperationStrategies opS) (perOperationEntries d)
      else api_v2.PerOperationStrategies opS
  end.
Proof.
  unfold resolveService, perOperationEntries, defaultPerOperationStrategies.
  destruct (api_v2.OperationSampling resp) as [opS|] eqn:Hresp.
  - destruct (mergeEnabled d); simpl; by rewrite ?Hresp.
  - destruct (api_v2.OperationSampling d) as [dOpS|],
             (api_v2.ProbabilisticSampling resp) as [r|]; simpl;
      by rewrite ?Hresp.
Qed.

(** C10. Merging with an empty default list returns the list unchanged, and
    merging the merged list with the same default list again changes
    nothing. *)
Theorem merge_identity_idempotent :
  forall a b : list api_v2.OperationSamplingStrategy,
    mergePerOperationSamplingStrategies a [] = a /\
    mergePerOperationSamplingStrategies
      (mergePerOperationSamplingStrategies a b) b =
    mergePerOperationSamplingStrategies a b.
Proof. intros a b. split; [apply merge_nil_r | apply merge_again]. Qed.

(** C4. Where merging is enabled, a service strategy with operation overrides
    gets, in the snapshot, the merge of its own entry list A with the
    default's entry list B: every entry of A in A's order, then every entry
    of B whose operation does not occur in A, in B's order. *)
Theorem merge_precedence (p : float) (cfg : strategies)
    (l1 l2 : list serviceStrategy) (s : serviceStrategy) :
  ServiceStrategies cfg = l1 ++ s :: l2 ->
  Service s ∉ Service <$> l2 ->
  OperationStrategies s <> [] ->
  mergeEnabled (defaultStrategy (buildStore p cfg).1) = true ->
  let A := perOperationEntries (parseServiceStrategies p s).1 in
  let B := perOperationEntries (defaultStrategy (buildStore p cfg).1) in
  exists r,
    serviceStrategies (buildStore p cfg).1 !! Service s = Some r /\
    perOperationEntries r = mergePerOperationSamplingStrategies A B /\
    mergePerOperationSamplingStrategies A B =
      A ++ filter (fun bOp => api_v2.Operation bOp ∉ operationNames A) B.
Proof.
  rewrite buildStore_default.
  intros Hl Hlast Hops Hmerge A B. exists (resolvedService p cfg s).
  split; [by apply (buildStore_lookup_last p cfg l1 s l2)|].
  split; [|apply merge_filter].
  unfold resolvedService. rewrite perOperationEntries_resolveService, Hmerge.
  destruct (api_v2.OperationSampling (parseServiceStrategies p s).1)
    as [opS|] eqn:Ht.
  - subst A B. unfold perOperationEntries at 2. by rewrite Ht.
  - by apply parseServiceStrategies_table in Ht.
Qed.

(** The example of C4: the default entries [A:0.1, B:0.2] merged under the
    service entries [A:0.9] give [A:0.9, B:0.2]. *)
Lemma merge_precedence_witness :
  exists r,
    serviceStrategies (buildStore Sample.probability Sample.mergeDoc).1 !! "foo"
      = Some r /\
    perOperationEntries r = [Sample.entry "A" 0.9; Sample.entry "B" 0.2].
Proof.
  destruct (merge_precedence Sample.probability Sample.mergeDoc
              [] [Sample.bar; Sample.baz] Sample.foo) as (r & Hr & He & _).
  - reflexivity.
  - compute_done.
  - discriminate.
  - reflexivity.
  - exists r. split; [exact Hr|]. rewrite He. vm_compute. reflexivity.
Defined.

(** C5, as stated, fails: a default strategy that names an operation twice
    resolves to an entry list that holds the operation twice. *)
Lemma unique_operations_counterexample :
  ~ snapshotUnique (buildStore Sample.probability Sample.duplicateDoc).1.
Proof.
  intros [Hd _]. unfold uniqueOperations in Hd. vm_compute in Hd.
  apply NoDup_cons in Hd as [Hd _]. apply Hd. by left.
Qed.

(** C5, amended. If no operation name occurs twice among the overrides that
    are kept of the default strategy, nor among those of any one service
    strategy, then every entry list of the snapshot has at most one entry per
    operation name. *)
Theorem unique_operations (p : float) (cfg : strategies) :
  distinctInput cfg -> snapshotUnique (buildStore p cfg).1.
Proof.
  intros [Hdef Hsvc].
  assert (Hd : uniqueOperations (resolvedDefault p cfg)).
  { unfold uniqueOperations, resolvedDefault.
    destruct (DefaultStrategy cfg) as [d|] eqn:Hcfg; [|apply NoDup_nil_2].
    rewrite perOperationEntries_parseServiceStrategies, operationNames_entryOf.
    by apply Hdef. }
  split; [by rewrite buildStore_default|].
  intros name r Hr.
  apply buildStore_lookup_Some in Hr as (s & Hin & _ & ->).
  unfold uniqueOperations, resolvedService.
  rewrite perOperationEntries_resolveService.
  pose proof (perOperationEntries_parseServiceStrategies p s) as Hown.
  unfold perOperationEntries in Hown at 1.
  destruct (api_v2.OperationSampling (parseServiceStrategies p s).1) as [opS|].
  - assert (Ha : NoDup (operationNames (api_v2.PerOperationStrategies opS))).
    { rewrite Hown, operationNames_entryOf. by apply Hsvc. }
    destruct (mergeEnabled (resolvedDefault p cfg)); [|done].
    by apply merge_NoDup.
  - destruct (api_v2.ProbabilisticSampling (parseServiceStrategies p s).1);
      [done | apply NoDup_nil_2].
Qed.

Lemma unique_operations_witness :
  snapshotUnique (buildStore Sample.probability Sample.mergeDoc).1.
Proof.
  apply (unique_operations Sample.probability Sample.mergeDoc).
  split.
  - intros d Hd. injection Hd as <-. unfold distinctOverrides. compute_done.
  - intros s Hs. unfold distinctOverrides.
    repeat (apply elem_of_cons in Hs as [->|Hs]);
      [compute_done .. | by apply elem_of_nil in Hs].
Defined.

(** ** Lookups *)

(** C3. [GetSamplingStrategy] returns the entry of the current snapshot for
    the service if there is one and the default strategy of the snapshot
    otherwise; the error is always [nil], and the snapshot is left as it
    is. *)
Theorem GetSamplingStrategy_lookup :
  forall (h : strategyStore) (serviceName : string),
    (GetSamplingStrategy h serviceName).1 =
      (match serviceStrategies (Load h) !! serviceName with
       | Some strategy => strategy
       | None => defaultStrategy (Load h)
       end, None) /\
    storedStrategiesV (GetSamplingStrategy h serviceName).2 =
      storedStrategiesV h.
Proof.
  intros h serviceName. unfold GetSamplingStrategy.
  by destruct (serviceStrategies (Load h) !! serviceName).
Qed.

(** ** Service strategies without operation overrides *)

(** C6. A service strategy without operation overrides keeps its base
    strategy; if the default strategy of the snapshot has a per-operation
    table and the service resolves to a probabilistic strategy, the service
    gets the default's table with the default probability replaced by its
    own rate, and otherwise it gets no table. *)
Theorem inherit_default_table (p : float) (cfg : strategies)
    (l1 l2 : list serviceStrategy) (s : serviceStrategy) :
  ServiceStrategies cfg = l1 ++ s :: l2 ->
  Service s ∉ Service <$> l2 ->
  OperationStrategies s = [] ->
  exists r,
    serviceStrategies (buildStore p cfg).1 !! Service s = Some r /\
    withOperationSampling r None = (parseStrategy p (svc_strategy s)).1 /\
    match api_v2.OperationSampling (defaultStrategy (buildStore p cfg).1),
          api_v2.StrategyType r with
    | Some dOpS, api_v2.SamplingStrategyType_PROBABILISTIC =>
        exists rate,
          api_v2.ProbabilisticSampling r =
            Some {| api_v2.SamplingRate := rate |} /\
          api_v2.OperationSampling r =
            Some {| api_v2.DefaultSamplingProbability := rate;
                    api_v2.PerOperationStrategies :=
                      api_v2.PerOperationStrategies dOpS |}
    | _, _ => api_v2.OperationSampling r = None
    end.
Proof.
  rewrite buildStore_default.
  intros Hl Hlast Hops. exists (resolvedService p cfg s).
  split; [by apply (buildStore_lookup_last p cfg l1 s l2)|].
  unfold resolvedService, resolveService.
  rewrite parseServiceStrategies_fst, Hops. cbn zeta iota.
  pose proof (parseStrategy_probabilistic p (svc_strategy s)) as Hprob.
  pose proof (parseStrategy_no_table p (svc_strategy s)) as Hnone.
  destruct (parseStrategy p (svc_strategy s)).1 as [ty pr rl tb]. simpl in *.
  subst tb.
  destruct (api_v2.OperationSampling (resolvedDefault p cfg)) as [dOpS|].
  - destruct pr as [[rate]|]; simpl.
    + split; [done|]. destruct ty; [by exists rate|].
      destruct Hprob as [_ Hprob]. by discriminate Hprob.
    + split; [done|]. destruct ty; [|done].
      destruct Hprob as [Hprob _]. by destruct Hprob.
  - split; [done|]. by destruct ty.
Qed.

(** At [bar] of the sample document, which inherits the table of the
    default under its own rate [0.7]. *)
Lemma inherit_default_table_witness :
  exists r,
    serviceStrategies (buildStore Sample.probability Sample.mergeDoc).1 !! "bar"
      = Some r /\
    api_v2.OperationSampling r =
      Some {| api_v2.DefaultSamplingProbability := 0.7;
              api_v2.PerOperationStrategies :=
                [Sample.entry "A" 0.1; Sample.entry "B" 0.2] |}.
Proof.
  destruct (inherit_default_table Sample.probability Sample.mergeDoc
              [Sample.foo] [Sample.baz] Sample.bar) as (r & Hr & Hbase & Ht).
  - reflexivity.
  - compute_done.
  - reflexivity.
  - exists r. split; [exact Hr|]. destruct r as [ty pr rl tb].
    vm_compute in Hbase. injection Hbase as -> -> ->.
    vm_compute in Ht. destruct Ht as (rate & Hp & Ht).
    injection Hp as <-. exact Ht.
Defined.

(** The inheritance example of the specification: the default has no table,
    and [foo] gets none. *)
Example inheritance_example :
  serviceStrategies (buildStore Sample.probability Sample.plainDoc).1 !! "foo" =
  Some {| api_v2.StrategyType := api_v2.SamplingStrategyType_PROBABILISTIC;
          api_v2.ProbabilisticSampling := Some {| api_v2.SamplingRate := 0.8 |};
          api_v2.RateLimitingSampling := None;
          api_v2.OperationSampling := None |}.
Proof. vm_compute. reflexivity. Qed.

(** A rate-limiting service without overrides gets no table, whatever the
    default has. *)
Example inheritance_rate_limiting :
  serviceStrategies (buildStore Sample.probability Sample.mergeDoc).1 !! "baz" =
  Some {| api_v2.StrategyType := api_v2.SamplingStrategyType_RATE_LIMITING;
          api_v2.ProbabilisticSampling := None;
          api_v2.RateLimitingSampling := Some {| api_v2.MaxTracesPerSecond := 5 |};
          api_v2.OperationSampling := None |}.
Proof. vm_compute. reflexivity. Qed.

(** The full example of the specification. *)
Example full_example :
  let st := (buildStore Sample.probability Sample.fullDoc).1 in
  serviceStrategies st !! "foo" =
    Some {| api_v2.StrategyType := api_v2.SamplingStrategyType_PROBABILISTIC;
            api_v2.ProbabilisticSampling :=
              Some {| api_v2.SamplingRate := 0.8 |};
            api_v2.RateLimitingSampling := None;
            api_v2.OperationSampling :=
              Some {| api_v2.DefaultSamplingProbability := 0.8;
                      api_v2.PerOperationStrategies :=
                        [Sample.entry "op1" 0.2] |} |} /\
  serviceStrategies st !! "bar" = None /\
  defaultStrategy st =
    {| api_v2.StrategyType := api_v2.SamplingStrategyType_PROBABILISTIC;
       api_v2.ProbabilisticSampling := Some {| api_v2.SamplingRate := 0.5 |};
       api_v2.RateLimitingSampling := None;
       api_v2.OperationSampling := None |}.
Proof. vm_compute. repeat split; reflexivity. Qed.

(** ** Overrides that are dropped, and unknown types *)

Lemma parseStrategy_rateLimiting_log (p : float) (s : strategy) :
  Type_ s = samplerTypeRateLimiting -> (parseStrategy p s).2 = [].
Proof.
  intros Hs. unfold parseStrategy. rewrite Hs.
  by repeat case_decide.
Qed.

Lemma operationLog_dropped (p probability : float) (o : operationStrategy) :
  Type_ (op_strategy o) = samplerTypeRateLimiting ->
  operationLog p probability o = [droppedWarning probability o].
Proof.
  intros Ho. unfold operationLog.
  rewrite parseStrategy_rateLimiting_log by done. by case_decide.
Qed.

Lemma retained_dropped (o : operationStrategy) (l1 l2 : list operationStrategy) :
  Type_ (op_strategy o) = samplerTypeRateLimiting ->
  retained (l1 ++ o :: l2) = retained (l1 ++ l2).
Proof.
  intros Ho. unfold retained. rewrite !filter_app.
  by rewrite filter_cons_False by (by intros Hn).
Qed.

(** Beside another override, a dropped override leaves the whole response of
    the service as it is without it. *)
Lemma dropped_override_response (p : float) (o : operationStrategy)
    (s : serviceStrategy) (l1 l2 : list operationStrategy) :
  Type_ (op_strategy o) = samplerTypeRateLimiting ->
  l1 ++ l2 <> [] ->
  (parseServiceStrategies p (withOperationStrategies s (l1 ++ o :: l2))).1 =
  (parseServiceStrategies p (withOperationStrategies s (l1 ++ l2))).1.
Proof.
  intros Ho Hne. rewrite !parseServiceStrategies_fst. cbn [OperationStrategies
    withOperationStrategies svc_strategy]. cbn zeta.
  rewrite (retained_dropped o l1 l2 Ho).
  destruct (l1 ++ l2) eqn:H12; [done|]. by destruct l1.
Qed.

(** C7, as stated, fails: an override that is dropped is not without effect
    when it is the only override of its strategy. The resolver tests the
    length of the list of overrides before it resolves them, so a table is
    attached although it gets no entry; for a rate-limiting service under a
    default that has a table, the loop of [parseStrategies] then merges the
    entries of the default into it, and a lookup returns a table where it
    returns none for the same service without the override. *)
Lemma lone_dropped_override_counterexample :
  let o := Sample.override "A" (Sample.rateLimiting 5) in
  let foo := Sample.service "foo" (Sample.probabilistic 0.8) [] in
  let svc := Sample.service "svc" (Sample.rateLimiting 2) [] in
  let doc s :=
    {| DefaultStrategy :=
         Some (Sample.service "" (Sample.probabilistic 0.5)
                 [Sample.override "A" (Sample.probabilistic 0.1)]);
       ServiceStrategies := [s] |} in
  let stored s :=
    serviceStrategies (buildStore Sample.probability (doc s)).1 !! "svc" in
  Type_ (op_strategy o) = samplerTypeRateLimiting /\
  (parseServiceStrategies Sample.probability
     (withOperationStrategies foo [o])).1 <>
  (parseServiceStrategies Sample.probability
     (withOperationStrategies foo [])).1 /\
  api_v2.OperationSampling <$> stored (withOperationStrategies svc []) =
    Some None /\
  api_v2.OperationSampling <$> stored (withOperationStrategies svc [o]) =
    Some (Some {| api_v2.DefaultSamplingProbability := Sample.probability;
                  api_v2.PerOperationStrategies := [Sample.entry "A" 0.1] |}).
Proof.
  vm_compute. split; [reflexivity|]. split; [|split; reflexivity].
  intros Heq. discriminate Heq.
Qed.

(** C7, amended. An override whose type is rate limiting is dropped:
    resolving it gives no strategy and logs one warning, the turn of the loop
    leaves the table as it is, and the entries built from a list of overrides
    are those built from the list without it, the log being the log of the
    others with the one warning in its place. If the strategy has another
    override, the warning is the only effect: the response is the one
    without the dropped override, the log is the log without it with the
    warning put in, and the snapshot of a document is the snapshot of the
    document without the override, be the strategy a service strategy or the
    default. If the override is the only one of its strategy, the response
    is the base strategy with a table that has no entry. *)
Theorem rate_limiting_override_dropped (p : float) (o : operationStrategy) :
  Type_ (op_strategy o) = samplerTypeRateLimiting ->
  let tableDefault s :=
    api_v2.DefaultSamplingProbability
      (initialOperationSampling p (parseStrategy p (svc_strategy s)).1) in
  (forall parent,
     parseOperationStrategy p o parent =
     (None, [droppedWarning (api_v2.DefaultSamplingProbability parent) o])) /\
  (forall opS,
     appendOperationStrategy p opS o =
     (opS, [droppedWarning (api_v2.DefaultSamplingProbability opS) o])) /\
  (forall l1 l2 opS,
     (rangeM (appendOperationStrategy p) (l1 ++ o :: l2) opS).1 =
       (rangeM (appendOperationStrategy p) (l1 ++ l2) opS).1 /\
     (rangeM (appendOperationStrategy p) (l1 ++ o :: l2) opS).2 =
       (rangeM (appendOperationStrategy p) l1 opS).2 ++
       [droppedWarning (api_v2.DefaultSamplingProbability opS) o] ++
       (rangeM (appendOperationStrategy p) l2 opS).2) /\
  (forall s l1 l2,
     l1 ++ l2 <> [] ->
     let dropping :=
       parseServiceStrategies p (withOperationStrategies s (l1 ++ o :: l2)) in
     let without :=
       parseServiceStrategies p (withOperationStrategies s (l1 ++ l2)) in
     dropping.1 = without.1 /\
     exists before after,
       without.2 = before ++ after /\
       dropping.2 = before ++ [droppedWarning (tableDefault s) o] ++ after) /\
  (forall d others rest s l1 l2,
     l1 ++ l2 <> [] ->
     (buildStore p
        {| DefaultStrategy := d;
           ServiceStrategies :=
             others ++ withOperationStrategies s (l1 ++ o :: l2) :: rest |}).1 =
     (buildStore p
        {| DefaultStrategy := d;
           ServiceStrategies :=
             others ++ withOperationStrategies s (l1 ++ l2) :: rest |}).1) /\
  (forall d services l1 l2,
     l1 ++ l2 <> [] ->
     (buildStore p
        {| DefaultStrategy := Some (withOperationStrategies d (l1 ++ o :: l2));
           ServiceStrategies := services |}).1 =
     (buildStore p
        {| DefaultStrategy := Some (withOperationStrategies d (l1 ++ l2));
           ServiceStrategies := services |}).1) /\
  (forall s,
     parseServiceStrategies p (withOperationStrategies s [o]) =
     (withOperationSampling (parseStrategy p (svc_strategy s)).1
        (Some {| api_v2.DefaultSamplingProbability := tableDefault s;
                 api_v2.PerOperationStrategies := [] |}),
      (parseStrategy p (svc_strategy s)).2 ++
      [droppedWarning (tableDefault s) o])).
Proof.
  intros Ho tableDefault.
  assert (Happend : forall opS,
    appendOperationStrategy p opS o =
    (opS, [droppedWarning (api_v2.DefaultSamplingProbability opS) o])).
  { intros opS. rewrite appendOperationStrategy_eq, operationLog_dropped by done.
    by case_decide. }
  assert (Hlog : forall s ops,
    ops <> [] ->
    (parseServiceStrategies p (withOperationStrategies s ops)).2 =
    (parseStrategy p (svc_strategy s)).2 ++
    concat (operationLog p (tableDefault s) <$> ops)).
  { intros s ops Hops. unfold parseServiceStrategies.
    cbn [withOperationStrategies OperationStrategies svc_strategy].
    rewrite bind_snd. f_equal. case_decide as Hlen.
    - by destruct ops.
    - rewrite bind_snd, rangeM_appendOperationStrategy. cbn [snd ret].
      by rewrite app_nil_r. }
  split; [|split; [exact Happend|split; [|split; [|split; [|split]]]]].
  - intros parent. unfold parseOperationStrategy.
    pose proof (parseStrategy_rateLimiting p (op_strategy o)) as [_ Hty].
    pose proof (parseStrategy_rateLimiting_log p _ Ho) as Hnil.
    destruct (parseStrategy p (op_strategy o)) as [s l]. simpl in *.
    rewrite (Hty Ho). subst l. reflexivity.
  - intros l1 l2 opS. rewrite !rangeM_appendOperationStrategy. cbn [fst snd].
    rewrite (retained_dropped o l1 l2 Ho). split; [done|].
    rewrite fmap_app, fmap_cons, concat_app. cbn [concat].
    by rewrite operationLog_dropped.
  - intros s l1 l2 Hne dropping without. subst dropping without.
    split; [by apply dropped_override_response|].
    exists ((parseStrategy p (svc_strategy s)).2 ++
            concat (operationLog p (tableDefault s) <$> l1)),
           (concat (operationLog p (tableDefault s) <$> l2)).
    rewrite !Hlog by (done || by destruct l1).
    rewrite !fmap_app, fmap_cons, !concat_app. cbn [concat].
    rewrite operationLog_dropped by done.
    by rewrite <- !app_assoc.
  - intros d others rest s l1 l2 Hne. rewrite !buildStore_fst.
    unfold resolvedService, resolvedDefault.
    cbn [DefaultStrategy ServiceStrategies]. f_equal.
    rewrite !foldl_app. cbn [foldl].
    by rewrite (dropped_override_response p o s l1 l2 Ho Hne).
  - intros d services l1 l2 Hne. rewrite !buildStore_fst.
    unfold resolvedService, resolvedDefault.
    cbn [DefaultStrategy ServiceStrategies].
    by rewrite (dropped_override_response p o d l1 l2 Ho Hne).
  - intros s. apply injective_projections.
    + rewrite parseServiceStrategies_fst.
      cbn [withOperationStrategies OperationStrategies svc_strategy fst].
      cbn zeta. unfold retained.
      by rewrite filter_cons_False by (by intros Hn).
    + rewrite (Hlog s [o]) by done. cbn [snd fmap list_fmap concat].
      by rewrite operationLog_dropped, app_nil_r.
Qed.

(** At a service whose overrides are [A] (rate limiting) and [B]. *)
Lemma rate_limiting_override_dropped_witness :
  let o := Sample.override "A" (Sample.rateLimiting 5) in
  let kept := Sample.override "B" (Sample.probabilistic 0.2) in
  (parseServiceStrategies Sample.probability
     (Sample.service "foo" (Sample.probabilistic 0.8) [o; kept])).1 =
  {| api_v2.StrategyType := api_v2.SamplingStrategyType_PROBABILISTIC;
     api_v2.ProbabilisticSampling := Some {| api_v2.SamplingRate := 0.8 |};
     api_v2.RateLimitingSampling := None;
     api_v2.OperationSampling :=
       Some {| api_v2.DefaultSamplingProbability := 0.8;
               api_v2.PerOperationStrategies := [Sample.entry "B" 0.2] |} |} /\
  parseOperationStrategy Sample.probability o
    {| api_v2.DefaultSamplingProbability := 0.8;
       api_v2.PerOperationStrategies := [] |} =
  (None, [droppedWarning 0.8 o]).
Proof.
  intros o kept.
  destruct (rate_limiting_override_dropped Sample.probability o eq_refl)
    as (Hop & _ & _ & Hsvc & _).
  destruct (Hsvc (Sample.service "foo" (Sample.probabilistic 0.8) [])
              [] [kept]) as (Heq & _); [discriminate|].
  split; [|apply Hop].
  etransitivity; [exact Heq|]. vm_compute. reflexivity.
Defined.

(** Alone in its list, a dropped override still makes the resolver attach a
    table, with no entry. *)
Example lone_dropped_override :
  (parseServiceStrategies Sample.probability
     (Sample.service "foo" (Sample.probabilistic 0.8)
        [Sample.override "A" (Sample.rateLimiting 5)])).1 =
  {| api_v2.StrategyType := api_v2.SamplingStrategyType_PROBABILISTIC;
     api_v2.ProbabilisticSampling := Some {| api_v2.SamplingRate := 0.8 |};
     api_v2.RateLimitingSampling := None;
     api_v2.OperationSampling :=
       Some {| api_v2.DefaultSamplingProbability := 0.8;
               api_v2.PerOperationStrategies := [] |} |}.
Proof. vm_compute. reflexivity. Qed.

(** C8. A strategy whose type is neither probabilistic nor rate limiting
    resolves to the bootstrap default response and logs one warning: as a
    base strategy, as an operation override (which is then kept), and as the
    strategy of a service, which still gets its entry in the snapshot. *)
Theorem unknown_type_falls_back (p : float) (s : strategy) :
  Type_ s <> samplerTypeProbabilistic ->
  Type_ s <> samplerTypeRateLimiting ->
  parseStrategy p s = (defaultStrategyResponse p, [Warn_failedToParse s]) /\
  (forall o parent,
     op_strategy o = s ->
     parseOperationStrategy p o parent =
     (Some (defaultStrategyResponse p), [Warn_failedToParse s])) /\
  (forall sv,
     svc_strategy sv = s -> OperationStrategies sv = [] ->
     parseServiceStrategies p sv =
     (defaultStrategyResponse p, [Warn_failedToParse s])) /\
  (forall cfg sv,
     svc_strategy sv = s -> sv ∈ ServiceStrategies cfg ->
     is_Some (serviceStrategies (buildStore p cfg).1 !! Service sv)).
Proof.
  intros Hp Hr.
  assert (Hs : parseStrategy p s =
               (defaultStrategyResponse p, [Warn_failedToParse s])).
  { unfold parseStrategy. by repeat case_decide. }
  split; [exact Hs|]. split; [|split].
  - intros o parent <-. unfold parseOperationStrategy. by rewrite Hs.
  - intros sv <- Hops. unfold parseServiceStrategies. rewrite Hs, Hops.
    reflexivity.
  - intros cfg sv _ Hin. by apply buildStore_lookup_is_Some.
Qed.

Lemma unknown_type_falls_back_witness :
  parseStrategy Sample.probability Sample.adaptive =
  ({| api_v2.StrategyType := api_v2.SamplingStrategyType_PROBABILISTIC;
      api_v2.ProbabilisticSampling := Some {| api_v2.SamplingRate := 0.001 |};
      api_v2.RateLimitingSampling := None;
      api_v2.OperationSampling := None |},
   [Warn_failedToParse Sample.adaptive]).
Proof.
  destruct (unknown_type_falls_back Sample.probability Sample.adaptive)
    as (Hs & _).
  - discriminate.
  - discriminate.
  - exact Hs.
Defined.

(** ** Loading, construction and reload *)

Section StoreFacts.

Variable p : float.
Variable unmarshal : string -> jsonResult.
Variable parse : string -> option URL.

Local Abbreviation loader := (samplingStrategyLoader parse).
Local Abbreviation reload := (reloadSamplingStrategy p unmarshal).
Local Abbreviation update := (updateSamplingStrategy p unmarshal).

(** A loader only logs: it leaves the snapshot alone, and what it fetches
    does not depend on the store. *)
Lemma loader_snapshot file (h : strategyStore) (w : world) :
  storedStrategiesV (loader file h w).2 = storedStrategiesV h /\
  allocated (loader file h w).2 = allocated h.
Proof.
  unfold samplingStrategyLoader, downloadSamplingStrategies.
  destruct (isURL parse file).
  - destruct (httpGet w file) as [|code status [buf|cause]]; try done.
    by repeat case_decide.
  - by destruct (readFile w file).
Qed.

Lemma loader_fetch file (h h' : strategyStore) (w : world) :
  (loader file h w).1 = (loader file h' w).1.
Proof.
  unfold samplingStrategyLoader, downloadSamplingStrategies.
  destruct (isURL parse file).
  - destruct (httpGet w file) as [|code status [buf|cause]]; try done.
    by repeat case_decide.
  - by destruct (readFile w file).
Qed.

(** A response of status 503 is fetched as the literal [null]. *)
Lemma download_unavailable (h : strategyStore) (w : world) url status buf :
  httpGet w url = HttpResponse StatusServiceUnavailable status (BodyRead buf) ->
  (downloadSamplingStrategies h w url).1 = inl nullJSON.
Proof.
  intros Hw. unfold downloadSamplingStrategies. rewrite Hw.
  by case_decide.
Qed.

Lemma log_snapshot (h : strategyStore) l :
  storedStrategiesV (log h l) = storedStrategiesV h /\
  allocated (log h l) = allocated h.
Proof. done. Qed.

(** [updateSamplingStrategy] either fails and leaves the store as it is, or
    stores a new snapshot, the one built from the document, or from the
    zero document when the bytes are [null]. *)
Lemma update_cases (h : strategyStore) (bytes : string) :
  match unmarshal bytes with
  | JsonError cause =>
      update h bytes = (Some (ErrUnmarshalSamplingStrategies cause), h)
  | JsonNull =>
      (update h bytes).1 = None /\
      storedStrategiesV (update h bytes).2 =
        (allocated h, (buildStore p zeroStrategies).1)
  | JsonValue doc =>
      (update h bytes).1 = None /\
      storedStrategiesV (update h bytes).2 =
        (allocated h, (buildStore p doc).1)
  end.
Proof.
  unfold updateSamplingStrategy, parseStrategies.
  destruct (unmarshal bytes) as [cause| |doc]; [done| |].
  - by destruct (buildStore p zeroStrategies).
  - by destruct (buildStore p doc).
Qed.

(** The fetched bytes equal [lastValue]: nothing is decoded or resolved,
    and the store is what the loader left. *)
Lemma reload_equal file (h : strategyStore) (w : world) (v : string) :
  (loader file h w).1 = inl v ->
  reload h (loader file) w v = (v, (loader file h w).2).
Proof.
  intros Hv. unfold reloadSamplingStrategy.
  destruct (loader file h w) as [[newValue|err] h1]; [|done].
  simpl in Hv. injection Hv as ->. by case_decide.
Qed.

(** Either [lastValue] and the snapshot stay, or the fetched bytes become
    [lastValue] and a new snapshot, built from what they decode to, is
    stored at a fresh address. *)
Lemma reload_cases file (h : strategyStore) (w : world) (lastValue v : string) :
  (loader file h w).1 = inl v ->
  let r := reload h (loader file) w lastValue in
  (r.1 = lastValue /\ storedStrategiesV r.2 = storedStrategiesV h /\
   (lastValue = v \/ exists cause, unmarshal v = JsonError cause)) \/
  (r.1 = v /\ lastValue <> v /\
   exists doc,
     (unmarshal v = JsonValue doc \/
      unmarshal v = JsonNull /\ doc = zeroStrategies) /\
     storedStrategiesV r.2 = (allocated h, (buildStore p doc).1)).
Proof.
  intros Hv r. subst r. unfold reloadSamplingStrategy.
  pose proof (loader_snapshot file h w) as [Hsnap Halloc].
  destruct (loader file h w) as [[newValue|err] h1]; [|done].
  simpl in *. injection Hv as ->. case_decide as Hd.
  { left. by eauto. }
  pose proof (update_cases h1 v) as Hu.
  destruct (unmarshal v) as [cause| |doc].
  - rewrite Hu. left. by eauto.
  - destruct Hu as [He Hs]. destruct (update h1 v) as [[err|] h2]; [done|].
    right. simpl in *. split; [done|]. split; [done|].
    exists zeroStrategies. rewrite Hs, Halloc. by eauto.
  - destruct Hu as [He Hs]. destruct (update h1 v) as [[err|] h2]; [done|].
    right. simpl in *. split; [done|]. split; [done|].
    exists doc. rewrite Hs, Halloc. by eauto.
Qed.


End StoreFacts.

(** C9. With a source configured, a first load that fails, in the fetch or
    in the decoding, makes [NewStrategyStore] return the error and no store;
    and a store is returned exactly when no error is. *)
Theorem NewStrategyStore_load_failure (p : float)
    (unmarshal : string -> jsonResult) (parse : string -> option URL)
    (options : Options) (logger0 : list logEntry) (w : world) :
  StrategiesFile options <> "" ->
  let fetched :=
    (samplingStrategyLoader parse (StrategiesFile options)
       (initialStore p logger0) w).1 in
  let result := NewStrategyStore p unmarshal parse options logger0 w in
  (forall err, fetched = inr err -> result = (None, Some err)) /\
  (forall bytes cause,
     fetched = inl bytes -> unmarshal bytes = JsonError cause ->
     result = (None, Some (ErrUnmarshalStrategies cause))) /\
  (result.1 = None <-> result.2 <> None) /\
  (is_Some result.1 ->
   exists bytes, fetched = inl bytes /\
                 forall cause, unmarshal bytes <> JsonError cause).
Proof.
  intros Hfile fetched result. subst fetched result.
  unfold NewStrategyStore, loadStrategies. case_decide; [done|].
  destruct (samplingStrategyLoader parse (StrategiesFile options)
              (initialStore p logger0) w) as [[bytes|err] h1]; simpl.
  - destruct (unmarshal bytes) as [cause| |doc] eqn:Hu; simpl;
      repeat case_decide; simpl;
      (split; [done|]); (split; [intros b c [= <-]; congruence|]);
      (split; [split; intros; congruence|]).
    + by intros [? ?].
    + intros _. exists bytes. split; [done|]. congruence.
    + intros _. exists bytes. split; [done|]. congruence.
    + intros _. exists bytes. split; [done|]. congruence.
    + intros _. exists bytes. split; [done|]. congruence.
  - split; [by intros e [= <-]|]. split; [done|].
    split; [done|]. by intros [? ?].
Qed.

(** At a source that cannot be read. *)
Lemma NewStrategyStore_load_failure_witness :
  NewStrategyStore Sample.probability Sample.jsonUnmarshal Sample.url_Parse
    Sample.options [] Sample.broken =
  (None, Some (ErrDownload "connection refused")).
Proof.
  destruct (NewStrategyStore_load_failure Sample.probability
              Sample.jsonUnmarshal Sample.url_Parse Sample.options []
              Sample.broken) as (Herr & _).
  - discriminate.
  - apply Herr. reflexivity.
Defined.

(** Text that is not JSON makes the construction fail as well. *)
Example NewStrategyStore_malformed :
  NewStrategyStore Sample.probability Sample.jsonUnmarshal Sample.url_Parse
    Sample.options [] (Sample.ok "{not json") =
  (None, Some (ErrUnmarshalStrategies "invalid character")).
Proof. vm_compute. reflexivity. Qed.




(** While [lastValue] is the literal [null], an unavailable source changes
    nothing. *)
Lemma unavailable_while_null (p : float) (unmarshal : string -> jsonResult)
    (parse : string -> option URL) (file : string) (h : strategyStore)
    (w : world) :
  (samplingStrategyLoader parse file h w).1 = inl nullJSON ->
  let r := reloadSamplingStrategy p unmarshal h
             (samplingStrategyLoader parse file) w nullJSON in
  r.1 = nullJSON /\ storedStrategiesV r.2 = storedStrategiesV h.
Proof.
  intros Hv r. subst r. rewrite reload_equal by done.
  split; [done|]. apply loader_snapshot.
Qed.

(** Once [lastValue] is a content that was applied, the literal [null] is
    decoded into the zero document and resolved: the snapshot is replaced by
    the bootstrap one. *)
Lemma unavailable_after_content (p : float) (unmarshal : string -> jsonResult)
    (parse : string -> option URL) (file : string) (h : strategyStore)
    (w : world) (lastValue : string) :
  unmarshal nullJSON = JsonNull ->
  lastValue <> nullJSON ->
  (samplingStrategyLoader parse file h w).1 = inl nullJSON ->
  let r := reloadSamplingStrategy p unmarshal h
             (samplingStrategyLoader parse file) w lastValue in
  r.1 = nullJSON /\
  storedStrategiesV r.2 = (allocated h, defaultStrategies p).
Proof.
  intros Hnull Hne Hv r.
  destruct (reload_cases p unmarshal parse file h w lastValue nullJSON Hv)
    as [(_ & _ & [Heq|[cause Herr]])|(H1 & _ & doc & Hdoc & Hs)];
    [done | congruence |].
  split; [done|]. fold r in Hs. rewrite Hs.
  destruct Hdoc as [Hdoc|[_ ->]]; [congruence | done].
Qed.

(** C1 fails on the code. A store is started on a URL that serves a document
    whose default strategy is probabilistic with rate 0.5; the first tick
    fetches the same document; at the second tick the URL answers 503. Before
    the second tick a lookup gives the rate 0.5; after it, the snapshot is
    another one and the lookup gives the bootstrap rate. *)
Theorem unavailable_reload_resets_snapshot :
  let served := Sample.ok Sample.halfText in
  let get h := (GetSamplingStrategy h "foo").1.1 in
  match NewStrategyStore Sample.probability Sample.jsonUnmarshal
          Sample.url_Parse Sample.options [] served with
  | (Some (h, Some loadFn), None) =>
      let run events :=
        (autoUpdateStrategies Sample.probability Sample.jsonUnmarshal
           loadFn events h).2 in
      let before := run [Tick served] in
      let after := run [Tick served; Tick Sample.unavailable] in
      (loadFn before Sample.unavailable).1 = inl nullJSON /\
      api_v2.ProbabilisticSampling (get before) =
        Some {| api_v2.SamplingRate := 0.5 |} /\
      api_v2.ProbabilisticSampling (get after) =
        Some {| api_v2.SamplingRate := Sample.probability |} /\
      LoadRef after <> LoadRef before /\
      Load after = defaultStrategies Sample.probability
  | _ => False
  end.
Proof. vm_compute. repeat split; discriminate. Qed.

(** * Further properties of the code *)

(** ** The merge as an operation on lists *)

Lemma filter_no_names (c l : list api_v2.OperationSamplingStrategy) :
  (forall x, x ∈ l -> api_v2.Operation x ∈ operationNames c) ->
  filter (fun x => api_v2.Operation x ∉ operationNames c) l = [].
Proof.
  intros Hc. induction l as [|x l IH]; [done|].
  rewrite filter_cons_False; [apply IH | ].
  - intros y Hy. apply Hc. by right.
  - intros Hx. apply Hx, Hc. by left.
Qed.

Lemma operationNames_merge (a b : list api_v2.OperationSamplingStrategy) k :
  k ∈ operationNames (mergePerOperationSamplingStrategies a b) <->
  k ∈ operationNames a \/ k ∈ operationNames b.
Proof.
  rewrite merge_filter. unfold operationNames.
  rewrite fmap_app, elem_of_app. split.
  - intros [Ha|Hb]; [by left|]. right.
    apply list_elem_of_fmap in Hb as (y & -> & Hy).
    apply list_elem_of_fmap_2. by apply list_elem_of_filter in Hy as [_ Hy].
  - intros [Ha|Hb]; [by left|].
    destruct (decide (k ∈ api_v2.Operation <$> a)) as [Ha|Ha]; [by left|].
    right. apply list_elem_of_fmap in Hb as (y & -> & Hy).
    apply list_elem_of_fmap_2. by apply list_elem_of_filter.
Qed.

(** Merging under the empty list gives the default list as it is, with its
    repetitions, and merging a list with itself gives the list. *)
Theorem merge_left_identity_self :
  forall a b : list api_v2.OperationSamplingStrategy,
    mergePerOperationSamplingStrategies [] b = b /\
    mergePerOperationSamplingStrategies a a = a.
Proof.
  intros a b. split.
  - rewrite merge_filter. cbn [app].
    induction b as [|x b IH]; [done|].
    rewrite filter_cons_True; [by rewrite IH|]. apply not_elem_of_nil.
  - rewrite merge_filter, filter_no_names; [by rewrite app_nil_r|].
    intros x Hx. by apply list_elem_of_fmap_2.
Qed.

(** The merge is associative: merging a service list under the merge of two
    default lists is merging the merged service list under the second. *)
Theorem merge_assoc :
  forall a b c : list api_v2.OperationSamplingStrategy,
    mergePerOperationSamplingStrategies
      (mergePerOperationSamplingStrategies a b) c =
    mergePerOperationSamplingStrategies a
      (mergePerOperationSamplingStrategies b c).
Proof.
  intros a b c.
  rewrite (merge_filter (mergePerOperationSamplingStrategies a b) c).
  rewrite (merge_filter a (mergePerOperationSamplingStrategies b c)).
  rewrite (merge_filter a b), (merge_filter b c).
  rewrite filter_app, <- app_assoc. do 2 f_equal.
  rewrite list_filter_filter. apply list_filter_iff. intros x.
  rewrite <- (merge_filter a b), operationNames_merge. tauto.
Qed.

Lemma firstEntry_app k (l1 l2 : list api_v2.OperationSamplingStrategy) :
  firstEntry k (l1 ++ l2) =
  match firstEntry k l1 with
  | Some e => Some e
  | None => firstEntry k l2
  end.
Proof.
  unfold firstEntry. induction l1 as [|x l1 IH]; [done|]. simpl.
  by destruct (bool_decide (api_v2.Operation x = k)).
Qed.

Lemma firstEntry_None k (l : list api_v2.OperationSamplingStrategy) :
  firstEntry k l = None <-> k ∉ operationNames l.
Proof.
  unfold firstEntry, operationNames. induction l as [|x l IH].
  - split; [intros _; apply not_elem_of_nil | done].
  - simpl. rewrite not_elem_of_cons. case_bool_decide as Hx.
    + split; [done|]. intros [Hne _]. by subst.
    + rewrite IH. split; [|tauto]. intros Hl. split; [congruence|done].
Qed.

(** A lookup by operation name in the merged list finds the entry of the
    service list if it has one for the name, and otherwise the first entry of
    the default list for it. *)
Theorem merge_first_entry :
  forall (a b : list api_v2.OperationSamplingStrategy) (k : string),
    firstEntry k (mergePerOperationSamplingStrategies a b) =
    match firstEntry k a with
    | Some e => Some e
    | None => firstEntry k b
    end.
Proof.
  intros a b k. rewrite merge_filter, firstEntry_app.
  destruct (firstEntry k a) as [e|] eqn:Ha; [done|].
  apply firstEntry_None in Ha. unfold firstEntry.
  induction b as [|x b IH]; [done|]. rewrite filter_cons. simpl.
  case_decide as Hx; simpl; case_bool_decide as Hk; try done.
  subst k. tauto.
Qed.

(** The merged list names the operations of either list and no other, and is
    at most as long as both together. *)
Theorem merge_names_length :
  forall (a b : list api_v2.OperationSamplingStrategy),
    (forall k, k ∈ operationNames (mergePerOperationSamplingStrategies a b) <->
               k ∈ operationNames a \/ k ∈ operationNames b) /\
    length a <= length (mergePerOperationSamplingStrategies a b)
             <= length a + length b.
Proof.
  intros a b. split; [intros k; apply operationNames_merge|].
  rewrite merge_filter, length_app.
  pose proof (length_filter
    (fun bOp => api_v2.Operation bOp ∉ operationNames a) b). lia.
Qed.

(** ** Invariants of the snapshot built from a document *)

Section SnapshotInvariants.

Variable p : float.

Lemma int32_of_float64_range (f : float) :
  (- 2 ^ 31 <= int32_of_float64 f < 2 ^ 31)%Z.
Proof.
  unfold int32_of_float64.
  destruct (Prim2SF f) as [sg| | |sg m e]; try lia.
  match goal with
  | |- context [if ?c then _ else _] => destruct c eqn:Hc
  end; [|lia].
  apply andb_true_iff in Hc as [Hlo Hhi]. lia.
Qed.

Lemma parseStrategy_wellTyped (s : strategy) : wellTyped (parseStrategy p s).1.
Proof.
  unfold parseStrategy, wellTyped. repeat case_decide; simpl.
  - by split; [eexists|].
  - split; [done|]. eexists. split; [done|]. apply int32_of_float64_range.
  - by split; [eexists|].
Qed.

(** The loop over the service strategies changes the table of a response
    and nothing else of it. *)
Lemma resolveService_base (d resp : api_v2.SamplingStrategyResponse) :
  withOperationSampling (resolveService d resp) None =
  withOperationSampling resp None.
Proof.
  unfold resolveService.
  destruct (api_v2.OperationSampling resp) as [opS|].
  - by destruct (mergeEnabled d).
  - by destruct (api_v2.OperationSampling d),
                (api_v2.ProbabilisticSampling resp).
Qed.

Lemma wellTyped_base (r r' : api_v2.SamplingStrategyResponse) :
  withOperationSampling r None = withOperationSampling r' None ->
  wellTyped r' -> wellTyped r.
Proof.
  unfold wellTyped, withOperationSampling. intros [= Ht Hp Hr].
  by rewrite Ht, Hp, Hr.
Qed.

Lemma parseServiceStrategies_base (s : serviceStrategy) :
  withOperationSampling (parseServiceStrategies p s).1 None =
  (parseStrategy p (svc_strategy s)).1.
Proof.
  rewrite parseServiceStrategies_fst. pose proof (parseStrategy_no_table p (svc_strategy s)) as Hn.
  destruct (parseStrategy p (svc_strategy s)).1 as [ty pr rl tb].
  simpl in Hn. subst tb. by destruct (OperationStrategies s).
Qed.

Lemma parseServiceStrategies_wellTyped (s : serviceStrategy) :
  wellTyped (parseServiceStrategies p s).1.
Proof.
  pose proof (parseStrategy_wellTyped (svc_strategy s)) as Hw.
  pose proof (parseStrategy_no_table p (svc_strategy s)) as Hn.
  apply (wellTyped_base _ (parseStrategy p (svc_strategy s)).1); [|done].
  rewrite parseServiceStrategies_base.
  destruct (parseStrategy p (svc_strategy s)).1 as [ty pr rl tb].
  simpl in Hn. by subst tb.
Qed.

(** A property of the default response built for a document and of what
    the loop leaves for each service strategy holds of the whole
    snapshot. *)
Lemma snapshotAll_intro (P : api_v2.SamplingStrategyResponse -> Prop)
    (cfg : strategies) :
  P (resolvedDefault p cfg) ->
  (forall s, s ∈ ServiceStrategies cfg -> P (resolvedService p cfg s)) ->
  snapshotAll P (buildStore p cfg).1.
Proof.
  intros Hd Hs. split; [by rewrite buildStore_default|].
  intros name r Hr. apply buildStore_lookup_Some in Hr as (s & Hin & _ & ->).
  by apply Hs.
Qed.

Lemma resolvedDefault_cases (P : api_v2.SamplingStrategyResponse -> Prop)
    (cfg : strategies) :
  P (defaultStrategyResponse p) ->
  (forall d, P (parseServiceStrategies p d).1) ->
  P (resolvedDefault p cfg).
Proof.
  intros Hb Hd. unfold resolvedDefault. by destruct (DefaultStrategy cfg).
Qed.

(** In every snapshot built from a document, every strategy has exactly the
    one of its probabilistic and rate-limiting parts that its type names,
    and a rate limit is within [int32]. *)
Theorem snapshot_wellTyped :
  forall cfg : strategies, snapshotAll wellTyped (buildStore p cfg).1.
Proof.
  intros cfg. apply snapshotAll_intro.
  - apply resolvedDefault_cases.
    + by split; [eexists|].
    + apply parseServiceStrategies_wellTyped.
  - intros s _. unfold resolvedService.
    apply (wellTyped_base _ (parseServiceStrategies p s).1).
    + apply resolveService_base.
    + apply parseServiceStrategies_wellTyped.
Qed.

Lemma entryOf_probabilistic (o : operationStrategy) :
  Type_ (op_strategy o) <> samplerTypeRateLimiting ->
  is_Some (api_v2.OperationProbabilisticSampling (entryOf p o)).
Proof.
  intros Ho. unfold entryOf. simpl. apply parseStrategy_probabilistic.
  pose proof (parseStrategy_rateLimiting p (op_strategy o)) as Hrl.
  destruct (api_v2.StrategyType (parseStrategy p (op_strategy o)).1);
    [done|]. exfalso. by apply Ho, Hrl.
Qed.

Lemma parseServiceStrategies_entriesProbabilistic (s : serviceStrategy) :
  entriesProbabilistic (parseServiceStrategies p s).1.
Proof.
  unfold entriesProbabilistic.
  rewrite perOperationEntries_parseServiceStrategies.
  apply Forall_fmap, Forall_forall. intros o Ho.
  apply list_elem_of_filter in Ho as [Ho _]. by apply entryOf_probabilistic.
Qed.

(** In every snapshot built from a document, every per-operation entry, of
    the default and of every service, whether its own, inherited or merged
    in, carries a probabilistic strategy. *)
Theorem snapshot_entriesProbabilistic :
  forall cfg : strategies,
    snapshotAll entriesProbabilistic (buildStore p cfg).1.
Proof.
  intros cfg.
  assert (Hd : entriesProbabilistic (resolvedDefault p cfg)).
  { apply resolvedDefault_cases; [apply Forall_nil_2|].
    apply parseServiceStrategies_entriesProbabilistic. }
  apply snapshotAll_intro; [done|]. intros s _.
  unfold entriesProbabilistic, resolvedService.
  rewrite perOperationEntries_resolveService.
  pose proof (parseServiceStrategies_entriesProbabilistic s) as Hs.
  unfold entriesProbabilistic, perOperationEntries in Hs.
  destruct (api_v2.OperationSampling (parseServiceStrategies p s).1) as [opS|].
  - destruct (mergeEnabled (resolvedDefault p cfg)); [|done].
    rewrite merge_filter. apply Forall_app. split; [done|].
    unfold entriesProbabilistic in Hd. rewrite Forall_forall in Hd.
    apply Forall_forall. intros x Hx.
    apply list_elem_of_filter in Hx as [_ Hx]. by apply Hd.
  - destruct (api_v2.ProbabilisticSampling (parseServiceStrategies p s).1);
      [done | apply Forall_nil_2].
Qed.

Lemma parseServiceStrategies_tableFollowsRate (s : serviceStrategy) :
  tableFollowsRate p (parseServiceStrategies p s).1.
Proof.
  intros opS. rewrite parseServiceStrategies_fst.
  pose proof (parseStrategy_wellTyped (svc_strategy s)) as Hw.
  pose proof (parseStrategy_no_table p (svc_strategy s)) as Hn.
  destruct (parseStrategy p (svc_strategy s)).1 as [ty pr rl tb].
  unfold wellTyped in Hw. simpl in *. subst tb.
  destruct (OperationStrategies s); simpl; [done|].
  intros [= <-]. simpl.
  destruct ty, pr as [pr|]; try done;
    destruct Hw as [Hw1 Hw2]; try done; by destruct Hw1.
Qed.

(** In every snapshot built from a document, the default probability of the
    per-operation table of a strategy is the sampling rate of that strategy
    when it is probabilistic, and [defaultSamplingProbability] when it is
    rate limiting. *)
Theorem snapshot_tableFollowsRate :
  forall cfg : strategies,
    snapshotAll (tableFollowsRate p) (buildStore p cfg).1.
Proof.
  intros cfg. apply snapshotAll_intro.
  - apply resolvedDefault_cases; [done|].
    apply parseServiceStrategies_tableFollowsRate.
  - intros s _ opS. unfold resolvedService, resolveService.
    pose proof (parseServiceStrategies_tableFollowsRate s) as Hs.
    unfold tableFollowsRate in Hs.
    destruct (parseServiceStrategies p s).1 as [ty pr rl tb]. simpl in *.
    destruct tb as [own|].
    + destruct (mergeEnabled (resolvedDefault p cfg)); simpl.
      * intros [= <-]. simpl. by apply Hs.
      * apply Hs.
    + destruct (api_v2.OperationSampling (resolvedDefault p cfg)) as [dOpS|],
               pr as [pr|]; simpl; try done.
      by intros [= <-].
Qed.

(** The snapshot built from a document has an entry for a name exactly when
    the document has a service strategy of that name. *)
Theorem snapshot_services :
  forall (cfg : strategies) (name : string),
    is_Some (serviceStrategies (buildStore p cfg).1 !! name) <->
    name ∈ Service <$> ServiceStrategies cfg.
Proof.
  intros cfg name. split.
  - intros [r Hr]. apply buildStore_lookup_Some in Hr as (s & Hin & <- & _).
    by apply list_elem_of_fmap_2.
  - intros Hin. rewrite buildStore_fst. cbn [serviceStrategies].
    apply services_lookup_is_Some. by right.
Qed.

Lemma services_overwritten {V} (f : serviceStrategy -> V)
    (l : list serviceStrategy) (m : gmap string V) (k : string) (v : V) :
  k ∈ Service <$> l ->
  foldl (fun m s => <[Service s := f s]> m) (<[k := v]> m) l =
  foldl (fun m s => <[Service s := f s]> m) m l.
Proof.
  revert m. induction l as [|s l IH]; intros m Hk.
  - by apply elem_of_nil in Hk.
  - cbn [foldl]. rewrite fmap_cons, elem_of_cons in Hk.
    destruct (decide (Service s = k)) as [<-|Hne].
    + by rewrite insert_insert_eq.
    + rewrite insert_insert_ne by done. apply IH.
      destruct Hk as [Hk|Hk]; [congruence|done].
Qed.

(** A service strategy whose name occurs again later in the document has no
    effect on the snapshot: the snapshot is the one of the document without
    it. *)
Theorem snapshot_overwritten (cfg : strategies)
    (l1 l2 : list serviceStrategy) (s : serviceStrategy) :
  ServiceStrategies cfg = l1 ++ s :: l2 ->
  Service s ∈ Service <$> l2 ->
  (buildStore p cfg).1 =
  (buildStore p {| DefaultStrategy := DefaultStrategy cfg;
                   ServiceStrategies := l1 ++ l2 |}).1.
Proof.
  intros Hl Hin. rewrite !buildStore_fst. cbn [ServiceStrategies]. rewrite Hl.
  unfold resolvedService, resolvedDefault. cbn [DefaultStrategy].
  f_equal. rewrite !foldl_app. cbn [foldl]. by apply services_overwritten.
Qed.

(** The strategy the snapshot holds for a service depends on the default
    strategy of the document and on the last service strategy of that name
    alone: it is what the document with that one service strategy gives. *)
Theorem snapshot_service_alone (cfg : strategies)
    (l1 l2 : list serviceStrategy) (s : serviceStrategy) :
  ServiceStrategies cfg = l1 ++ s :: l2 ->
  Service s ∉ Service <$> l2 ->
  serviceStrategies (buildStore p cfg).1 !! Service s =
  serviceStrategies
    (buildStore p {| DefaultStrategy := DefaultStrategy cfg;
                     ServiceStrategies := [s] |}).1 !! Service s.
Proof.
  intros Hl Hlast.
  rewrite (buildStore_lookup_last p cfg l1 s l2 Hl Hlast).
  by rewrite (buildStore_lookup_last p _ [] s []);
    [ | | apply not_elem_of_nil].
Qed.

End SnapshotInvariants.

(** ** What the resolver logs *)

Section ResolverLog.

Variable p : float.

Lemma parseStrategy_snd (s : strategy) :
  (parseStrategy p s).2 =
  if decide (Type_ s = samplerTypeProbabilistic \/
             Type_ s = samplerTypeRateLimiting)
  then [] else [Warn_failedToParse s].
Proof.
  unfold parseStrategy. repeat case_decide; try done; tauto.
Qed.

Lemma parseServiceStrategies_snd (s : serviceStrategy) :
  (parseServiceStrategies p s).2 =
  (parseStrategy p (svc_strategy s)).2 ++
  match OperationStrategies s with
  | [] => []
  | _ :: _ =>
      concat (operationLog p
                (api_v2.DefaultSamplingProbability
                   (initialOperationSampling p
                      (parseStrategy p (svc_strategy s)).1))
              <$> OperationStrategies s)
  end.
Proof.
  unfold parseServiceStrategies. rewrite bind_snd.
  destruct (OperationStrategies s) as [|o ops] eqn:Hops.
  - by case_decide.
  - case_decide; [done|].
    rewrite bind_snd, rangeM_appendOperationStrategy. cbn [snd ret].
    by rewrite app_nil_r.
Qed.

Lemma rangeM_serviceLoopBody_snd (l : list serviceStrategy)
    (st : storedStrategies) :
  (rangeM (serviceLoopBody p) l st).2 =
  concat ((fun s => (parseServiceStrategies p s).2) <$> l).
Proof.
  revert st. induction l as [|s l IH]; intros st; [done|].
  cbn [rangeM]. rewrite bind_snd, IH, fmap_cons. cbn [concat]. f_equal.
  unfold serviceLoopBody. rewrite bind_snd. cbn [ret snd].
  by rewrite app_nil_r.
Qed.

(** The log of a resolution: what the default strategy logs, then what each
    service strategy logs, in the order of the document. *)
Lemma buildStore_snd (cfg : strategies) :
  (buildStore p cfg).2 =
  match DefaultStrategy cfg with
  | Some d => (parseServiceStrategies p d).2
  | None => []
  end ++
  concat ((fun s => (parseServiceStrategies p s).2) <$> ServiceStrategies cfg).
Proof.
  unfold buildStore. rewrite bind_snd, rangeM_serviceLoopBody_snd. f_equal.
  destruct (DefaultStrategy cfg); [|done].
  rewrite bind_snd. cbn [ret snd]. by rewrite app_nil_r.
Qed.

Lemma operationLog_warnings probability (o : operationStrategy) :
  Forall isWarning (operationLog p probability o).
Proof.
  unfold operationLog. rewrite parseStrategy_snd. apply Forall_app.
  split; repeat case_decide; by repeat constructor.
Qed.

Lemma parseServiceStrategies_warnings (s : serviceStrategy) :
  Forall isWarning (parseServiceStrategies p s).2.
Proof.
  rewrite parseServiceStrategies_snd, parseStrategy_snd. apply Forall_app.
  split; [case_decide; by repeat constructor|].
  destruct (OperationStrategies s) as [|o ops]; [done|].
  apply Forall_concat, Forall_fmap, Forall_forall. intros o' _.
  apply operationLog_warnings.
Qed.

Lemma parseServiceStrategies_quiet (s : serviceStrategy) :
  quietStrategy s -> (parseServiceStrategies p s).2 = [].
Proof.
  intros [Hty Hops]. rewrite parseServiceStrategies_snd, parseStrategy_snd.
  case_decide; [|done]. cbn [app].
  destruct (OperationStrategies s) as [|o ops] eqn:Heq; [done|].
  generalize (api_v2.DefaultSamplingProbability
                (initialOperationSampling p
                   (parseStrategy p (svc_strategy s)).1)). intros dp.
  clear Heq. induction Hops as [|o' ops' Ho' Hops' IH]; [done|].
  rewrite fmap_cons. cbn [concat]. rewrite IH, app_nil_r.
  unfold operationLog. rewrite parseStrategy_snd, Ho'.
  by repeat case_decide; try tauto.
Qed.

(** A resolution logs warnings and nothing else. *)
Theorem resolution_logs_warnings :
  forall cfg : strategies, Forall isWarning (buildStore p cfg).2.
Proof.
  intros cfg. rewrite buildStore_snd. apply Forall_app. split.
  - destruct (DefaultStrategy cfg); [|done].
    apply parseServiceStrategies_warnings.
  - apply Forall_concat, Forall_fmap, Forall_forall. intros s _.
    apply parseServiceStrategies_warnings.
Qed.

(** A resolution logs nothing for a document in which every base strategy is
    probabilistic or rate limiting and every operation override is
    probabilistic. *)
Theorem resolution_quiet (cfg : strategies) :
  quietDocument cfg -> (buildStore p cfg).2 = [].
Proof.
  intros [Hd Hs]. rewrite buildStore_snd.
  assert (Hdef : match DefaultStrategy cfg with
                 | Some d => (parseServiceStrategies p d).2
                 | None => []
                 end = []).
  { destruct (DefaultStrategy cfg) as [d|]; [|done].
    by apply parseServiceStrategies_quiet, Hd. }
  rewrite Hdef. cbn [app].
  induction Hs as [|s l Hq Hl IH]; [done|].
  rewrite fmap_cons. cbn [concat].
  by rewrite parseServiceStrategies_quiet, IH.
Qed.

End ResolverLog.

Lemma resolution_quiet_witness :
  (buildStore Sample.probability Sample.mergeDoc).2 = [].
Proof.
  apply (resolution_quiet Sample.probability Sample.mergeDoc). split.
  - intros d [= <-]. split; [by left|]. by repeat constructor.
  - repeat constructor; by (left + right).
Defined.

Lemma snapshot_overwritten_witness :
  let early := Sample.service "foo" (Sample.probabilistic 0.1) [] in
  let late := Sample.service "foo" (Sample.probabilistic 0.9) [] in
  (buildStore Sample.probability
     {| DefaultStrategy := None; ServiceStrategies := [early; late] |}).1 =
  (buildStore Sample.probability
     {| DefaultStrategy := None; ServiceStrategies := [late] |}).1.
Proof.
  intros early late.
  apply (snapshot_overwritten Sample.probability
           {| DefaultStrategy := None; ServiceStrategies := [early; late] |}
           [] [late] early).
  - reflexivity.
  - compute_done.
Defined.

Lemma snapshot_service_alone_witness :
  serviceStrategies (buildStore Sample.probability Sample.mergeDoc).1 !! "bar" =
  serviceStrategies
    (buildStore Sample.probability
       {| DefaultStrategy := DefaultStrategy Sample.mergeDoc;
          ServiceStrategies := [Sample.bar] |}).1 !! "bar".
Proof.
  apply (snapshot_service_alone Sample.probability Sample.mergeDoc
           [Sample.foo] [Sample.baz] Sample.bar).
  - reflexivity.
  - compute_done.
Defined.

(** ** Fetching *)

(** A download yields bytes in two cases only: the body of a response of
    status 200, and the literal [null] for a response of status 503 whose
    body could be read. Every other outcome is an error. *)
Theorem download_success :
  forall (h : strategyStore) (w : world) (url bytes : string),
    (downloadSamplingStrategies h w url).1 = inl bytes <->
    exists code status body,
      httpGet w url = HttpResponse code status (BodyRead body) /\
      (code = StatusOK /\ bytes = body \/
       code = StatusServiceUnavailable /\ bytes = nullJSON).
Proof.
  intros h w url bytes. unfold downloadSamplingStrategies. split.
  - destruct (httpGet w url) as [cause|code status [body|cause]]; try done.
    case_decide as H503; [|case_decide as H200]; [|done|].
    + intros [= <-]. exists code, status, body. by eauto.
    + intros [= <-]. exists code, status, body. split; [done|]. left.
      split; [|done]. destruct (decide (code = StatusOK)); [done|]. tauto.
  - intros (code & status & body & -> & [[-> ->]|[-> ->]]);
      by repeat case_decide.
Qed.

Section Fetching.

Variable parse : string -> option URL.

Local Abbreviation loader := (samplingStrategyLoader parse).

(** A source that is a URL is downloaded whatever the file system holds, and
    any other source is read as a file whatever HTTP would answer; either
    way the loader logs one entry and leaves the rest of the store alone. *)
Theorem loader_source (file : string) (h : strategyStore) (w w' : world) :
  (if isURL parse file then httpGet w file = httpGet w' file
   else readFile w file = readFile w' file) ->
  loader file h w = loader file h w' /\
  (loader file h w).2 =
    log h [if isURL parse file then Info_downloading file
           else Info_loading file].
Proof.
  unfold samplingStrategyLoader, downloadSamplingStrategies.
  destruct (isURL parse file); intros ->.
  - split; [done|].
    destruct (httpGet w' file) as [cause|code status [body|cause]]; try done.
    by repeat case_decide.
  - split; [done|]. by destruct (readFile w' file).
Qed.

End Fetching.

Lemma loader_source_witness :
  samplingStrategyLoader Sample.url_Parse Sample.strategiesPath
    (initialStore Sample.probability []) (Sample.ok Sample.halfText) =
  samplingStrategyLoader Sample.url_Parse Sample.strategiesPath
    (initialStore Sample.probability [])
    {| httpGet := httpGet Sample.broken;
       readFile := readFile (Sample.ok Sample.halfText) |}.
Proof.
  apply (loader_source Sample.url_Parse Sample.strategiesPath
           (initialStore Sample.probability []) (Sample.ok Sample.halfText)
           {| httpGet := httpGet Sample.broken;
              readFile := readFile (Sample.ok Sample.halfText) |}).
  reflexivity.
Defined.

(** ** One reload *)

Section Reloading.

Variable p : float.
Variable unmarshal : string -> jsonResult.

Local Abbreviation reload := (reloadSamplingStrategy p unmarshal).

(** A reload whose fetch fails, or whose fetched bytes differ from
    [lastValue] and do not decode, keeps [lastValue] and the store the loader
    left, and logs one error. *)
Theorem reload_failure (loadFn : strategyLoader) (h h1 : strategyStore)
    (w : world) (lastValue : string) :
  (forall err,
     loadFn h w = (inr err, h1) ->
     reload h loadFn w lastValue = (lastValue, log h1 [Error_reload err])) /\
  (forall newValue cause,
     loadFn h w = (inl newValue, h1) ->
     lastValue <> newValue ->
     unmarshal newValue = JsonError cause ->
     reload h loadFn w lastValue =
     (lastValue,
      log h1 [Error_update (ErrUnmarshalSamplingStrategies cause)])).
Proof.
  unfold reloadSamplingStrategy, updateSamplingStrategy. split.
  - by intros err ->.
  - intros newValue cause -> Hne Herr. case_decide; [done|].
    by rewrite Herr.
Qed.

(** A reload that fetches bytes which differ from [lastValue] and decode to
    a document remembers the bytes and stores, at the next free address, the
    snapshot built from the document; the log gets what the resolution
    logged and then the update entry. *)
Theorem reload_applies (loadFn : strategyLoader) (h h1 : strategyStore)
    (w : world) (lastValue newValue : string) (doc : strategies) :
  loadFn h w = (inl newValue, h1) ->
  lastValue <> newValue ->
  unmarshal newValue = JsonValue doc ->
  let r := reload h loadFn w lastValue in
  r.1 = newValue /\
  storedStrategiesV r.2 = (allocated h1, (buildStore p doc).1) /\
  allocated r.2 = S (allocated h1) /\
  logger r.2 = logger h1 ++ (buildStore p doc).2 ++ [Info_updated newValue] /\
  forall serviceName,
    (GetSamplingStrategy r.2 serviceName).1 =
    (default (defaultStrategy (buildStore p doc).1)
       (serviceStrategies (buildStore p doc).1 !! serviceName), None).
Proof.
  intros Hload Hne Hdoc r. subst r.
  unfold reloadSamplingStrategy, updateSamplingStrategy, parseStrategies.
  rewrite Hload. case_decide; [done|]. rewrite Hdoc.
  destruct (buildStore p doc) as [newStore l]. simpl.
  split; [done|]. split; [done|]. split; [done|].
  split; [by rewrite <- app_assoc|].
  intros serviceName. unfold GetSamplingStrategy, Load. simpl.
  by destruct (serviceStrategies newStore !! serviceName).
Qed.

(** Whatever the loader, the value of [lastValue] after the reload loop is
    the literal [null] it started from or bytes that decoded without
    error. *)
Theorem lastValue_decodes :
  forall (loadFn : strategyLoader) (events : list event) (h : strategyStore),
    let r := autoUpdateStrategies p unmarshal loadFn events h in
    r.1 = nullJSON \/ forall cause, unmarshal r.1 <> JsonError cause.
Proof.
  intros loadFn events h. unfold autoUpdateStrategies.
  assert (Hinv : forall lv,
    (lv = nullJSON \/ forall cause, unmarshal lv <> JsonError cause) ->
    forall evs h0,
      let r := autoUpdateLoop p unmarshal loadFn evs lv h0 in
      r.1 = nullJSON \/ forall cause, unmarshal r.1 <> JsonError cause).
  { intros lv Hlv evs. revert lv Hlv.
    induction evs as [|[w|] evs IH]; intros lv Hlv h0; [done| |done].
    cbn [autoUpdateLoop].
    destruct (reloadSamplingStrategy p unmarshal h0 loadFn w lv)
      as [lv1 h1] eqn:Hr.
    apply IH. unfold reloadSamplingStrategy, updateSamplingStrategy in Hr.
    destruct (loadFn h0 w) as [[v|err] h2]; [|by injection Hr as <- _].
    case_decide; [by injection Hr as <- _|].
    destruct (unmarshal v) as [cause| |doc] eqn:Hv;
      injection Hr as <- _; [done| |]; right; congruence. }
  by apply Hinv; left.
Qed.

End Reloading.

Lemma reload_failure_witness :
  let loadFn := samplingStrategyLoader Sample.url_Parse Sample.strategiesURL in
  let h := initialStore Sample.probability [] in
  reloadSamplingStrategy Sample.probability Sample.jsonUnmarshal h loadFn
    Sample.broken nullJSON =
  (nullJSON,
   log (loadFn h Sample.broken).2
     [Error_reload (ErrDownload "connection refused")]).
Proof.
  intros loadFn h.
  apply (proj1 (reload_failure Sample.probability Sample.jsonUnmarshal loadFn
                  h (loadFn h Sample.broken).2 Sample.broken nullJSON)).
  reflexivity.
Defined.

Lemma reload_applies_witness :
  let loadFn := samplingStrategyLoader Sample.url_Parse Sample.strategiesURL in
  let h := initialStore Sample.probability [] in
  let w := Sample.ok Sample.halfText in
  let r := reloadSamplingStrategy Sample.probability Sample.jsonUnmarshal h
             loadFn w nullJSON in
  r.1 = Sample.halfText /\
  storedStrategiesV r.2 =
    (1, (buildStore Sample.probability Sample.halfDoc).1).
Proof.
  intros loadFn h w.
  destruct (reload_applies Sample.probability Sample.jsonUnmarshal loadFn h
              (loadFn h w).2 w nullJSON Sample.halfText Sample.halfDoc)
    as (H1 & H2 & _).
  - reflexivity.
  - discriminate.
  - reflexivity.
  - split; [exact H1 | exact H2].
Defined.

(** ** Addresses of snapshots, construction and lookups *)

Section Publishing.

Variable p : float.
Variable unmarshal : string -> jsonResult.
Variable parse : string -> option URL.

Local Abbreviation loader := (samplingStrategyLoader parse).
Local Abbreviation reload := (reloadSamplingStrategy p unmarshal).

(** One reload keeps the snapshot, or stores one at the next free
    address. *)
Lemma reload_step file (h : strategyStore) (w : world) (lastValue : string) :
  let r := reload h (loader file) w lastValue in
  (storedStrategiesV r.2 = storedStrategiesV h /\
   allocated r.2 = allocated h) \/
  (LoadRef r.2 = allocated h /\ allocated r.2 = S (allocated h)).
Proof.
  intros r. subst r.
  unfold reloadSamplingStrategy, updateSamplingStrategy, parseStrategies.
  pose proof (loader_snapshot parse file h w) as [Hs Ha].
  destruct (loader file h w) as [[v|err] h1]; simpl in *; [|by left].
  case_decide; [by left|].
  destruct (unmarshal v) as [cause| |doc]; [by left| |].
  - destruct (buildStore p zeroStrategies). right. simpl. by rewrite Ha.
  - destruct (buildStore p doc). right. simpl. by rewrite Ha.
Qed.

Lemma autoUpdateLoop_addresses file (events : list event)
    (lastValue : string) (h : strategyStore) :
  wellFormedStore h ->
  let r := autoUpdateLoop p unmarshal (loader file) events lastValue h in
  wellFormedStore r.2 /\ allocated h <= allocated r.2 /\
  (storedStrategiesV r.2 = storedStrategiesV h \/ allocated h <= LoadRef r.2).
Proof.
  revert lastValue h. induction events as [|[w|] events IH];
    intros lastValue h Hwf; simpl; [by eauto| |by eauto].
  pose proof (reload_step file h w lastValue) as Hstep.
  destruct (reload h (loader file) w lastValue) as [lv1 h1]. simpl in Hstep.
  unfold wellFormedStore, LoadRef in *.
  assert (Hwf1 : (storedStrategiesV h1).1 < allocated h1).
  { destruct Hstep as [[-> ->]|[-> ->]]; lia. }
  destruct (IH lv1 h1 Hwf1) as (Hw & Ha & Hv).
  split; [done|]. destruct Hstep as [[Hs1 Ha1]|[Hs1 Ha1]].
  - rewrite <- Hs1, <- Ha1. by eauto.
  - split; [lia|]. right. destruct Hv as [->|Hv]; lia.
Qed.

(** Along the reload loop the address the store holds never goes back, it
    stays among the addresses handed out, and as long as it is the same the
    snapshot behind it is the same. *)
Theorem autoUpdate_addresses file (events : list event) (lastValue : string)
    (h : strategyStore) :
  wellFormedStore h ->
  let r := autoUpdateLoop p unmarshal (loader file) events lastValue h in
  wellFormedStore r.2 /\
  LoadRef h <= LoadRef r.2 /\
  (LoadRef r.2 = LoadRef h -> Load r.2 = Load h).
Proof.
  intros Hwf r.
  destruct (autoUpdateLoop_addresses file events lastValue h Hwf)
    as (Hw & Ha & Hv). fold r in Hw, Ha, Hv.
  unfold wellFormedStore, LoadRef, Load in *.
  split; [done|]. split.
  - destruct Hv as [->|Hv]; lia.
  - intros Heq. destruct Hv as [->|Hv]; [done|lia].
Qed.

(** Without a source the store holds the bootstrap snapshot, starts no
    reload loop and answers every lookup with the bootstrap default, whatever
    the world. *)
Theorem NewStrategyStore_no_source (options : Options)
    (logger0 : list logEntry) (w : world) :
  StrategiesFile options = "" ->
  exists h,
    NewStrategyStore p unmarshal parse options logger0 w =
      (Some (h, None), None) /\
    storedStrategiesV h = (0, defaultStrategies p) /\
    logger h = logger0 ++ [Info_noStrategies] /\
    forall serviceName,
      (GetSamplingStrategy h serviceName).1 = (defaultStrategyResponse p, None).
Proof.
  intros Hfile. unfold NewStrategyStore. case_decide; [|done].
  eexists. split; [done|]. repeat split.
Qed.

(** With a source whose bytes decode to the literal [null], as a URL that
    answers 503 gives them, the construction succeeds and the store keeps the
    bootstrap snapshot it started with; the reload loop is started exactly
    when the interval is positive. *)
Theorem NewStrategyStore_null (options : Options)
    (logger0 : list logEntry) (w : world) (bytes : string) :
  StrategiesFile options <> "" ->
  (loader (StrategiesFile options) (initialStore p logger0) w).1 = inl bytes ->
  unmarshal bytes = JsonNull ->
  exists h loadFn,
    NewStrategyStore p unmarshal parse options logger0 w =
      (Some (h, loadFn), None) /\
    storedStrategiesV h = (0, defaultStrategies p) /\
    allocated h = 1 /\
    (is_Some loadFn <-> (ReloadInterval options > 0)%Z).
Proof.
  intros Hfile Hv Hnull. unfold NewStrategyStore, loadStrategies.
  case_decide; [done|].
  pose proof (loader_snapshot parse (StrategiesFile options)
                (initialStore p logger0) w) as [Hs Ha].
  destruct (loader (StrategiesFile options) (initialStore p logger0) w)
    as [[v|err] h1]; simpl in *; [|done].
  injection Hv as ->. rewrite Hnull. simpl.
  case_decide; eexists _, _; (split; [done|]); simpl;
    rewrite Hs, Ha; repeat split; try done; by intros [? ?].
Qed.

(** With a source whose bytes decode to a document, the construction
    succeeds and the store holds the snapshot built from the document, the
    second one built after the bootstrap one; the reload loop is started
    exactly when the interval is positive. *)
Theorem NewStrategyStore_document (options : Options)
    (logger0 : list logEntry) (w : world) (bytes : string) (doc : strategies) :
  StrategiesFile options <> "" ->
  (loader (StrategiesFile options) (initialStore p logger0) w).1 = inl bytes ->
  unmarshal bytes = JsonValue doc ->
  exists h loadFn,
    NewStrategyStore p unmarshal parse options logger0 w =
      (Some (h, loadFn), None) /\
    storedStrategiesV h = (1, (buildStore p doc).1) /\
    allocated h = 2 /\
    (is_Some loadFn <-> (ReloadInterval options > 0)%Z).
Proof.
  intros Hfile Hv Hdoc. unfold NewStrategyStore, loadStrategies.
  case_decide; [done|].
  pose proof (loader_snapshot parse (StrategiesFile options)
                (initialStore p logger0) w) as [Hs Ha].
  destruct (loader (StrategiesFile options) (initialStore p logger0) w)
    as [[v|err] h1]; simpl in *; [|done].
  injection Hv as ->. rewrite Hdoc. simpl. unfold parseStrategies.
  destruct (buildStore p doc) as [newStore l].
  case_decide; eexists _, _; (split; [done|]); simpl;
    rewrite Ha; repeat split; try done; by intros [? ?].
Qed.

(** If the source still serves the bytes of the startup load at the first
    tick, and they are a document, the tick stores a snapshot that is equal
    to the one of the startup load, at a new address, and remembers the
    bytes. *)
Theorem first_tick_republishes (options : Options)
    (logger0 : list logEntry) (w : world) (bytes : string) (doc : strategies) :
  StrategiesFile options <> "" ->
  (loader (StrategiesFile options) (initialStore p logger0) w).1 = inl bytes ->
  unmarshal bytes = JsonValue doc ->
  bytes <> nullJSON ->
  exists h loadFn,
    NewStrategyStore p unmarshal parse options logger0 w =
      (Some (h, loadFn), None) /\
    let r := autoUpdateStrategies p unmarshal
               (loader (StrategiesFile options)) [Tick w] h in
    r.1 = bytes /\ Load r.2 = Load h /\ LoadRef r.2 = S (LoadRef h).
Proof.
  intros Hfile Hv Hdoc Hne. unfold NewStrategyStore, loadStrategies.
  case_decide; [done|].
  pose proof (loader_snapshot parse (StrategiesFile options)
                (initialStore p logger0) w) as [Hs Ha].
  pose proof (loader_fetch parse (StrategiesFile options)) as Hf.
  destruct (loader (StrategiesFile options) (initialStore p logger0) w)
    as [[v|err] h1] eqn:Hl; simpl in *; [|done].
  injection Hv as ->. rewrite Hdoc.
  set (h := parseStrategies p h1 (Some doc)).
  assert (Hh : storedStrategiesV h = (1, (buildStore p doc).1) /\
               allocated h = 2).
  { subst h. unfold parseStrategies. destruct (buildStore p doc).
    simpl. by rewrite Ha. }
  destruct Hh as [Hh1 Hh2].
  assert (Hv : (loader (StrategiesFile options) h w).1 = inl bytes).
  { rewrite (Hf h (initialStore p logger0) w). by rewrite Hl. }
  assert (Hr : let r := autoUpdateStrategies p unmarshal
                          (loader (StrategiesFile options)) [Tick w] h in
               r.1 = bytes /\ Load r.2 = Load h /\ LoadRef r.2 = S (LoadRef h)).
  { unfold autoUpdateStrategies. cbn [autoUpdateLoop].
    destruct (reload_cases p unmarshal parse (StrategiesFile options) h w
                nullJSON bytes Hv)
      as [(_ & _ & [Heq|[cause Herr]])|(H1 & _ & doc' & Hdoc' & Hs')];
      [congruence | congruence |].
    destruct (reloadSamplingStrategy p unmarshal h
                (loader (StrategiesFile options)) w nullJSON) as [lv1 h2].
    simpl in *. split; [done|]. unfold Load, LoadRef.
    rewrite Hs', Hh1, Hh2. simpl.
    destruct Hdoc' as [Hdoc'|[Hdoc' _]]; [|congruence].
    split; [|done]. congruence. }
  case_decide; eexists _, _; (split; [done|]); exact Hr.
Qed.

(** Lookups only read: a lookup leaves the snapshot in place, answers are
    the same after any lookup and after [Close], and a lookup logs its one
    debug entry exactly when the service is missing. *)
Theorem lookups_read_only :
  forall (h : strategyStore) (name other : string),
    let h1 := (GetSamplingStrategy h name).2 in
    (GetSamplingStrategy h1 other).1 = (GetSamplingStrategy h other).1 /\
    (GetSamplingStrategy (Close h) other).1 = (GetSamplingStrategy h other).1 /\
    logger h1 =
      logger h ++
      match serviceStrategies (Load h) !! name with
      | Some _ => []
      | None => [Debug_notFound name]
      end.
Proof.
  intros h name other. unfold GetSamplingStrategy, Load, Close. simpl.
  destruct (serviceStrategies (storedStrategiesV h).2 !! name); simpl;
    destruct (serviceStrategies (storedStrategiesV h).2 !! other);
    by rewrite ?app_nil_r.
Qed.

End Publishing.

Lemma autoUpdate_addresses_witness :
  let h := initialStore Sample.probability [] in
  let r := autoUpdateLoop Sample.probability Sample.jsonUnmarshal
             (samplingStrategyLoader Sample.url_Parse Sample.strategiesURL)
             [Tick (Sample.ok Sample.halfText); Tick Sample.unavailable]
             nullJSON h in
  wellFormedStore r.2 /\ LoadRef h <= LoadRef r.2 /\
  (LoadRef r.2 = LoadRef h -> Load r.2 = Load h).
Proof.
  intros h.
  apply (autoUpdate_addresses Sample.probability Sample.jsonUnmarshal
           Sample.url_Parse Sample.strategiesURL
           [Tick (Sample.ok Sample.halfText); Tick Sample.unavailable]
           nullJSON h).
  unfold wellFormedStore, LoadRef. simpl. lia.
Defined.

Lemma NewStrategyStore_no_source_witness :
  exists h,
    NewStrategyStore Sample.probability Sample.jsonUnmarshal Sample.url_Parse
      {| StrategiesFile := ""; ReloadInterval := 0 |} [] Sample.broken =
      (Some (h, None), None) /\
    storedStrategiesV h = (0, defaultStrategies Sample.probability).
Proof.
  destruct (NewStrategyStore_no_source Sample.probability Sample.jsonUnmarshal
              Sample.url_Parse {| StrategiesFile := ""; ReloadInterval := 0 |}
              [] Sample.broken) as (h & Hnew & Hs & _).
  - reflexivity.
  - exists h. split; [exact Hnew | exact Hs].
Defined.

Lemma NewStrategyStore_null_witness :
  exists h loadFn,
    NewStrategyStore Sample.probability Sample.jsonUnmarshal Sample.url_Parse
      Sample.options [] Sample.unavailable = (Some (h, loadFn), None) /\
    storedStrategiesV h = (0, defaultStrategies Sample.probability).
Proof.
  destruct (NewStrategyStore_null Sample.probability Sample.jsonUnmarshal
              Sample.url_Parse Sample.options [] Sample.unavailable nullJSON)
    as (h & loadFn & Hnew & Hs & _).
  - discriminate.
  - reflexivity.
  - reflexivity.
  - exists h, loadFn. split; [exact Hnew | exact Hs].
Defined.

Lemma NewStrategyStore_document_witness :
  exists h loadFn,
    NewStrategyStore Sample.probability Sample.jsonUnmarshal Sample.url_Parse
      Sample.options [] (Sample.ok Sample.halfText) =
      (Some (h, loadFn), None) /\
    storedStrategiesV h =
      (1, (buildStore Sample.probability Sample.halfDoc).1).
Proof.
  destruct (NewStrategyStore_document Sample.probability Sample.jsonUnmarshal
              Sample.url_Parse Sample.options [] (Sample.ok Sample.halfText)
              Sample.halfText Sample.halfDoc)
    as (h & loadFn & Hnew & Hs & _).
  - discriminate.
  - reflexivity.
  - reflexivity.
  - exists h, loadFn. split; [exact Hnew | exact Hs].
Defined.

Lemma first_tick_republishes_witness :
  exists h loadFn,
    NewStrategyStore Sample.probability Sample.jsonUnmarshal Sample.url_Parse
      Sample.options [] (Sample.ok Sample.halfText) =
      (Some (h, loadFn), None) /\
    let r := autoUpdateStrategies Sample.probability Sample.jsonUnmarshal
               (samplingStrategyLoader Sample.url_Parse Sample.strategiesURL)
               [Tick (Sample.ok Sample.halfText)] h in
    r.1 = Sample.halfText /\ Load r.2 = Load h /\ LoadRef r.2 = S (LoadRef h).
Proof.
  apply (first_tick_republishes Sample.probability Sample.jsonUnmarshal
           Sample.url_Parse Sample.options [] (Sample.ok Sample.halfText)
           Sample.halfText Sample.halfDoc).
  - discriminate.
  - reflexivity.
  - reflexivity.
  - discriminate.
Defined.

(** ** Operations of the default in the tables of the services *)

(** In the snapshot built from a document, the table of every probabilistic
    service names every operation that the table of the default strategy
    names: by inheritance if the service has no override of its own, by the
    merge if it has. *)
Theorem default_operations_inherited (p : float) (cfg : strategies)
    (name k : string) (r : api_v2.SamplingStrategyResponse) :
  serviceStrategies (buildStore p cfg).1 !! name = Some r ->
  is_Some (api_v2.ProbabilisticSampling r) ->
  k ∈ operationNames (perOperationEntries (defaultStrategy (buildStore p cfg).1)) ->
  k ∈ operationNames (perOperationEntries r).
Proof.
  rewrite buildStore_default. intros Hr Hp Hk.
  apply buildStore_lookup_Some in Hr as (s & _ & _ & ->).
  unfold resolvedService in *.
  pose proof (resolveService_base (resolvedDefault p cfg)
                (parseServiceStrategies p s).1) as Hb.
  injection Hb as _ Hpr _. rewrite Hpr in Hp.
  rewrite perOperationEntries_resolveService.
  destruct (api_v2.OperationSampling (parseServiceStrategies p s).1) as [opS|].
  - destruct (mergeEnabled (resolvedDefault p cfg)) eqn:Hm.
    + apply operationNames_merge. by right.
    + exfalso. unfold mergeEnabled in Hm. unfold perOperationEntries in Hk.
      destruct (api_v2.OperationSampling (resolvedDefault p cfg)) as [dOpS|];
        [|by apply elem_of_nil in Hk].
      destruct (api_v2.PerOperationStrategies dOpS); [|done].
      by apply elem_of_nil in Hk.
  - by destruct Hp as [pr ->].
Qed.

Lemma default_operations_inherited_witness :
  exists r,
    serviceStrategies (buildStore Sample.probability Sample.mergeDoc).1 !! "foo"
      = Some r /\
    "B" ∈ operationNames (perOperationEntries r).
Proof.
  destruct (serviceStrategies
              (buildStore Sample.probability Sample.mergeDoc).1 !! "foo")
    as [r|] eqn:Hr; [|by vm_compute in Hr].
  exists r. split; [reflexivity|].
  apply (default_operations_inherited Sample.probability Sample.mergeDoc
           "foo" "B" r Hr).
  - vm_compute in Hr. injection Hr as <-. by eexists.
  - compute_done.
Defined.
